(** * q-custom-plugin: the synchronisation pipeline of the plugin manager

    A shallow embedding of [src/connectors/dataSourceConnector.js]
    (classes [DataSourceConnector] and [PluginManager]) and the properties
    of the batcher, the document transformer, the pagination loop and the
    upload/retry loop.

    Conventions of the embedding.
    - JavaScript numbers that the code uses as counters, sizes and
      milliseconds are integers of [Z]; the values met here stay far below
      2^53, where doubles are exact.
    - A JavaScript array is a [list]. The loops that come to an end stay
      far below the 2^32 - 1 elements that an array can hold, and their
      models leave that limit out; [createBatches_run] is the batcher on
      an array that cannot grow without end, for the loop that does not
      come to an end by itself.
    - A plain object used as a bag of fields is a [gmap string JsVal];
      reading a missing field gives [VUndefined].
    - [async] functions run sequentially (every call is awaited), so they
      are functions of an explicit state; the outside world (source API,
      sink, clock) is a set of oracles.
    - Calls of the logger do not influence control flow and are left out. *)

From Stdlib.Strings Require Ascii Byte String.
From stdpp Require Import base numbers list strings gmap pretty.

Local Open Scope Z_scope.

(** ** Array.prototype.slice and the batcher *)

Section Batcher.
Context {A : Type}.

(** [arr.slice(start, end)]: negative indices count from the end and both
    bounds are clamped to the array. *)
Definition slice (arr : list A) (start end_ : Z) : list A :=
  let len := Z.of_nat (length arr) in
  let k := if start <? 0 then Z.max (len + start) 0 else Z.min start len in
  let final := if end_ <? 0 then Z.max (len + end_) 0 else Z.min end_ len in
  take (Z.to_nat (final - k)) (drop (Z.to_nat k) arr).

(** The [for] loop of [createBatches]: [i] is the loop index, [batches]
    the array built so far; one unit of fuel is one iteration. [None]
    means that the loop is still running when the fuel is used up. *)
Fixpoint createBatches_loop (fuel : nat) (documents : list A)
    (batchSize i : Z) (batches : list (list A)) : option (list (list A)) :=
  if i <? Z.of_nat (length documents) then
    match fuel with
    | O => None
    | S fuel' =>
        createBatches_loop fuel' documents batchSize (i + batchSize)
          (batches ++ [slice documents i (i + batchSize)])
    end
  else Some batches.

Definition createBatches (fuel : nat) (documents : list A) (batchSize : Z)
    : option (list (list A)) :=
  createBatches_loop fuel documents batchSize 0 [].

(** ceil(n / s) for a positive [s]. *)
Definition ceil_div (n s : Z) : Z := (n + s - 1) / s.

(** Every batch but the last one has exactly [s] elements. *)
Definition full_but_last (s : Z) (batches : list (list A)) : Prop :=
  ∀ (k : nat) (b : list A),
    batches !! k = Some b → (S k < length batches)%nat →
    Z.of_nat (length b) = s.

(** Every batch is non-empty and has at most [s] elements. *)
Definition bounded_batches (s : Z) (batches : list (list A)) : Prop :=
  Forall (λ b, b ≠ [] ∧ Z.of_nat (length b) ≤ s) batches.

End Batcher.

(** ** JavaScript values *)

(** The values a parsed JSON payload is made of. [VNum] carries the
    integer-valued numbers; a fractional number behaves in every function
    below like a non-zero integer. *)
#[warnings="-register-all"]
Inductive JsVal : Type :=
  | VUndefined
  | VNull
  | VBool (b : bool)
  | VNum (n : Z)
  | VNaN
  | VStr (s : string)
  | VArr (items : list JsVal)
  | VObj (fields : gmap string JsVal).

(** ToBoolean. *)
Definition truthy (v : JsVal) : bool :=
  match v with
  | VUndefined | VNull | VNaN => false
  | VBool b => b
  | VNum n => negb (n =? 0)
  | VStr s => negb (String.eqb s "")
  | VArr _ | VObj _ => true
  end.

(** [a || b] *)
Definition js_or (a b : JsVal) : JsVal := if truthy a then a else b.

Infix "|||" := js_or (at level 50, left associativity).

(** A source record: a plain object. *)
Abbreviation RawDocument := (gmap string JsVal).

(** [document.key] *)
Definition prop (document : RawDocument) (key : string) : JsVal :=
  default VUndefined (document !! key).

Record JsError : Type := MkError { err_name : string; err_message : string }.

(** The settlement of a promise of the outside world. *)
Inductive JsResult (A : Type) : Type :=
  | Resolved (a : A)
  | Rejected (e : JsError).
Arguments Resolved {A} a.
Arguments Rejected {A} e.

(** ** UTF-8

    A string value is a sequence of characters U+0000..U+00FF, one per
    [ascii]; its UTF-8 encoding takes one byte below U+0080 and two bytes
    from there on. *)

Definition utf8_char (c : Ascii.ascii) : list Byte.byte :=
  let n := Ascii.N_of_ascii c in
  if (n <? 128)%N then [Ascii.byte_of_ascii c]
  else [Ascii.byte_of_ascii (Ascii.ascii_of_N (192 + n / 64));
        Ascii.byte_of_ascii (Ascii.ascii_of_N (128 + n mod 64))].

Definition utf8_encode (s : string) : list Byte.byte :=
  flat_map utf8_char (String.list_ascii_of_string s).

(** ** Documents of the sink *)

Record SinkDocument : Type := MkSinkDocument {
  doc_id : JsVal;
  doc_title : JsVal;
  doc_blob : list Byte.byte;          (* content.blob *)
  doc_contentType : string;
  doc_attributes : gmap string JsVal
}.

Record SinkResponse : Type := MkSinkResponse {
  failedDocuments : list JsVal
}.

(** ** The payload of a page of the source API

    Either the payload is itself the array of documents, or it is an object
    whose [documents] and [items] fields, when present, are arrays. *)
Inductive ResponseData : Type :=
  | DataArray (docs : list RawDocument)
  | DataObject (documents items : option (list RawDocument))
               (hasMore has_more totalCount total : JsVal).

(** What [fetchPage] puts in the [documents] field of its result: an
    array, or the payload object itself (which has no [length]). *)
Inductive PageDocuments : Type :=
  | PdArray (docs : list RawDocument)
  | PdPayload.

Record PageData : Type := MkPageData {
  pd_documents : PageDocuments;
  pd_hasMore : JsVal;
  pd_totalCount : JsVal
}.

(** The object that [fetchPage] builds from [response.data]:
    [documents] is [data.documents || data.items || data] (an array is
    truthy even when it is empty), [hasMore] is
    [data.hasMore || data.has_more || false] and [totalCount] is
    [data.totalCount || data.total || 0]; an array payload has none of
    these fields. *)
Definition pageDataOf (data : ResponseData) : PageData :=
  match data with
  | DataArray docs =>
      MkPageData (PdArray docs)
        (VUndefined ||| VUndefined ||| VBool false)
        (VUndefined ||| VUndefined ||| VNum 0)
  | DataObject documents items hasMore has_more totalCount total =>
      MkPageData
        match documents with
        | Some docs => PdArray docs
        | None => match items with
                  | Some docs => PdArray docs
                  | None => PdPayload
                  end
        end
        (hasMore ||| has_more ||| VBool false)
        (totalCount ||| total ||| VNum 0)
  end.

(** ** Configuration: the keys read by the two classes *)
Record Config : Type := MkConfig {
  plugin_name : string;        (* plugin.name *)
  dataSource_batchSize : Z;    (* dataSource.batchSize *)
  plugin_maxRetries : Z;       (* plugin.maxRetries *)
  plugin_retryDelay : Z        (* plugin.retryDelay *)
}.

(** ** Observable events and the state of a run *)
Inductive Event : Type :=
  | EvGet (page limit : Z)                  (* GET /documents *)
  | EvDelay (ms : Z)                        (* setTimeout *)
  | EvSend (documents : list SinkDocument). (* BatchPutDocument *)

Record World : Type := MkWorld {
  clockReads : nat;      (* readings of the wall clock so far *)
  sends : nat;           (* calls of the sink so far *)
  trace : list Event     (* events so far, oldest first *)
}.

Definition initialWorld : World := MkWorld 0 0 [].

Definition log_event (ev : Event) (w : World) : World :=
  MkWorld (clockReads w) (sends w) (trace w ++ [ev]).

(** The calls of the sink recorded in a trace, and the waits. *)
Definition uploads (t : list Event) : list (list SinkDocument) :=
  omap (λ ev, match ev with EvSend d => Some d | _ => None end) t.

Definition delays (t : list Event) : list Z :=
  omap (λ ev, match ev with EvDelay ms => Some ms | _ => None end) t.

Definition requests (t : list Event) : list Z :=
  omap (λ ev, match ev with EvGet page _ => Some page | _ => None end) t.

(** ** Computations: state, exceptions and fuel *)
Inductive Outcome (A : Type) : Type :=
  | Return (a : A)       (* normal completion *)
  | Throw (e : JsError)  (* an exception propagates *)
  | Running.             (* the fuel ran out before completion *)
Arguments Return {A} a.
Arguments Throw {A} e.
Arguments Running {A}.

Definition M (A : Type) : Type := World → Outcome A * World.

Definition throw {A} (e : JsError) : M A := λ w, (Throw e, w).
Definition running {A} : M A := λ w, (Running, w).

(** Sequencing, written [x ← m; k] and [m;; k]: an exception or the end of
    the fuel in [m] skips [k]. *)
#[global] Instance M_ret : MRet M := λ A a w, (Return a, w).

#[global] Instance M_bind : MBind M := λ A B k m w,
  match m w with
  | (Return a, w') => k a w'
  | (Throw e, w') => (Throw e, w')
  | (Running, w') => (Running, w')
  end.

(** [try { m } catch (error) { handler error }] *)
Definition try_catch {A} (m : M A) (handler : JsError → M A) : M A := λ w,
  match m w with
  | (Throw e, w') => handler e w'
  | r => r
  end.

(** The settlement of [m] as a value: the body of a [try] whose [catch]
    decides how the enclosing loop goes on. *)
Definition settle {A} (m : M A) : M (JsResult A) := λ w,
  match m w with
  | (Return a, w') => (Return (Resolved a), w')
  | (Throw e, w') => (Return (Rejected e), w')
  | (Running, w') => (Running, w')
  end.

(** Awaiting a promise of the outside world. *)
Definition await {A} (r : JsResult A) : M A :=
  match r with
  | Resolved a => mret a
  | Rejected e => throw e
  end.

(** ** The two classes *)

Section Plugin.

(** [this.config] *)
Variable config : Config.

(** The platform: what [JSON.stringify] prints for a document, the MD5
    digest in hexadecimal, the decimal notation of a number and the ISO
    8601 notation of an instant. *)
Variable JSON_stringify : RawDocument → string.
Variable md5_hex : string → string.
Variable decimal : Z → string.
Variable toISOString : Z → string.

(** [Buffer.from(value, 'utf-8')] of an array or an object. *)
Variable Buffer_from_object : JsVal → JsResult (list Byte.byte).

(** The outside world: the [n]-th reading of the wall clock, in
    milliseconds; the answer of the source API to [GET /documents] with
    the given page and limit; the answer of the sink to its [n]-th call,
    which carries the given documents. *)
Variable clock : nat → Z.
Variable httpGet : Z → Z → JsResult ResponseData.
Variable sinkSend : nat → list SinkDocument → JsResult SinkResponse.

(** *** Primitive effects *)

(** [await this.delay(ms)] *)
Definition delay (ms : Z) : M unit := λ w, (Return tt, log_event (EvDelay ms) w).

(** [Date.now()] and the instant of [new Date()] *)
Definition Date_now : M Z := λ w,
  (Return (clock (clockReads w)),
   MkWorld (S (clockReads w)) (sends w) (trace w)).

(** [await this.client.get('/documents', { params: { page, limit } })],
    giving [response.data] *)
Definition client_get (page limit : Z) : M ResponseData := λ w,
  await (httpGet page limit) (log_event (EvGet page limit) w).

(** [await this.qBusinessClient.send(new BatchPutDocumentCommand(...))] *)
Definition qBusinessClient_send (documents : list SinkDocument) : M SinkResponse := λ w,
  await (sinkSend (sends w) documents)
    (MkWorld (clockReads w) (S (sends w)) (trace w ++ [EvSend documents])).

(** [Buffer.from(value, 'utf-8')]: a string is encoded, a number or a
    boolean is refused with a TypeError. *)
Definition Buffer_from (value : JsVal) : JsResult (list Byte.byte) :=
  match value with
  | VStr s => Resolved (utf8_encode s)
  | VArr _ | VObj _ => Buffer_from_object value
  | VUndefined | VNull | VBool _ | VNum _ | VNaN =>
      Rejected (MkError "TypeError" "ERR_INVALID_ARG_TYPE")
  end.

(** *** DataSourceConnector *)

(** [this.config.get('dataSource.batchSize') || 100] *)
Definition pageLimit : Z :=
  if dataSource_batchSize config =? 0 then 100
  else dataSource_batchSize config.

Definition fetchPage (page : Z) : M PageData :=
  try_catch
    (data ← client_get page pageLimit;
     mret (pageDataOf data))
    (λ error, throw error).

(** The [while (hasMore)] loop of [fetchAll]; one unit of fuel is one
    iteration. *)
Fixpoint fetchAll_loop (fuel : nat) (documents : list RawDocument)
    (page : Z) (hasMore : JsVal) : M (list RawDocument) :=
  if truthy hasMore then
    match fuel with
    | O => running
    | S fuel' =>
        pageData ← fetchPage page;
        let '(documents, page, hasMore) :=
          match pd_documents pageData with
          | PdArray (doc :: docs) =>
              (documents ++ doc :: docs, page + 1,
               pd_hasMore pageData ||| VBool false)
          | PdArray [] | PdPayload => (documents, page, VBool false)
          end in
        delay 100;;
        fetchAll_loop fuel' documents page hasMore
    end
  else mret documents.

Definition fetchAll (fuel : nat) : M (list RawDocument) :=
  try_catch (fetchAll_loop fuel [] 1 (VBool true)) (λ error, throw error).

(** *** PluginManager *)

Definition generateDocumentId (document : RawDocument) : M JsVal :=
  let source := plugin_name config in
  timestamp ← Date_now;
  let hash := String.substring 0 8 (md5_hex (JSON_stringify document)) in
  mret (VStr (source +:+ "-" +:+ decimal timestamp +:+ "-" +:+ hash)).

Definition extractCustomAttributes (document : RawDocument) : gmap string JsVal :=
  let customAttributes := ∅ in
  let customAttributes :=
    if truthy (prop document "author")
    then <["author" := prop document "author"]> customAttributes
    else customAttributes in
  let customAttributes :=
    if truthy (prop document "category")
    then <["category" := prop document "category"]> customAttributes
    else customAttributes in
  let customAttributes :=
    if truthy (prop document "tags")
    then <["tags" := prop document "tags"]> customAttributes
    else customAttributes in
  customAttributes.

(** [new Date().toISOString()] *)
Definition new_Date_toISOString : M JsVal :=
  t ← Date_now; mret (VStr (toISOString t)).

(** [a || <computation>]: the right operand runs only for a falsy [a]. *)
Definition or_else (a : JsVal) (b : M JsVal) : M JsVal :=
  if truthy a then mret a else b.

Definition transformDocument (document : RawDocument) : M SinkDocument :=
  id ← or_else (prop document "id") (generateDocumentId document);
  let title := prop document "title" ||| prop document "name" ||| VStr "Untitled" in
  blob ← await (Buffer_from
                  (prop document "content" ||| prop document "body" ||| VStr ""));
  let _source_uri := prop document "url" ||| prop document "source" ||| VStr "" in
  _created_at ← or_else (prop document "createdAt") new_Date_toISOString;
  _updated_at ← or_else (prop document "updatedAt") new_Date_toISOString;
  mret (MkSinkDocument id title blob "PLAIN_TEXT"
          (extractCustomAttributes document
           ∪ <["_source_uri" := _source_uri]>
               (<["_created_at" := _created_at]>
                  (<["_updated_at" := _updated_at]> ∅)))).

Definition fetchDocuments (fuel : nat) : M (list SinkDocument) :=
  try_catch
    (documents ← fetchAll fuel;
     mapM transformDocument documents)
    (λ error, throw error).

Definition uploadBatch (documents : list SinkDocument) : M SinkResponse :=
  response ← qBusinessClient_send documents;
  mret response.

(** The [for] loop of [retryBatch]; one unit of fuel is one iteration. *)
Fixpoint retryBatch_loop (fuel : nat) (batch : list SinkDocument)
    (attempt : Z) : M unit :=
  let maxRetries := plugin_maxRetries config in
  let baseDelay := plugin_retryDelay config in
  if attempt <=? maxRetries then
    match fuel with
    | O => running
    | S fuel' =>
        outcome ← settle (delay (baseDelay * 2 ^ (attempt - 1));;
                          uploadBatch batch);
        match outcome with
        | Resolved _ => mret tt
        | Rejected error =>
            if attempt =? maxRetries then throw error
            else retryBatch_loop fuel' batch (attempt + 1)
        end
    end
  else mret tt.

(** The loop runs at most [maxRetries] times, so this fuel is enough. *)
Definition retryBatch (batch : list SinkDocument) (batchNumber : Z) : M unit :=
  retryBatch_loop (Z.to_nat (plugin_maxRetries config)) batch 1.

(** The [for] loop of [processBatches] over the batches from index [i]
    on; [n] is [batches.length]. *)
Fixpoint processBatches_loop (n : Z) (remaining : list (list SinkDocument))
    (i : Z) : M unit :=
  match remaining with
  | [] => mret tt
  | batch :: rest =>
      try_catch
        (uploadBatch batch;;
         if i <? n - 1 then delay 1000 else mret tt)
        (λ error, retryBatch batch (i + 1));;
      processBatches_loop n rest (i + 1)
  end.

Definition processBatches (fuel : nat) (documents : list SinkDocument) : M unit :=
  let batchSize := dataSource_batchSize config in
  match createBatches fuel documents batchSize with
  | None => running
  | Some batches =>
      processBatches_loop (Z.of_nat (length batches)) batches 0
  end.

Definition sync (fuel : nat) : M unit :=
  try_catch
    (documents ← fetchDocuments fuel;
     if (length documents =? 0)%nat then mret tt
     else processBatches fuel documents)
    (λ error, throw error).

End Plugin.

(** ** Vocabulary of the statements *)

(** The events of attempt number [a] of [retryBatch]: the wait, then the
    call of the sink with the batch. *)
Definition attempt_events (baseDelay : Z) (batch : list SinkDocument)
    (a : nat) : list Event :=
  [EvDelay (baseDelay * 2 ^ (Z.of_nat a - 1)); EvSend batch].

(** The state after attempts [a], [a + 1], ..., [a + m - 1] on [batch]. *)
Definition after_attempts (baseDelay : Z) (batch : list SinkDocument)
    (a m : nat) (w : World) : World :=
  MkWorld (clockReads w) (sends w + m)
    (trace w ++ flat_map (attempt_events baseDelay batch) (seq a m)).

(** The documents that a page contributes: those of a non-empty array. *)
Definition page_docs (data : ResponseData) : list RawDocument :=
  match pd_documents (pageDataOf data) with
  | PdArray docs => docs
  | PdPayload => []
  end.

(** A page after which [fetchAll] asks for the next one: it has documents
    and its [hasMore] flag is truthy. *)
Definition page_continues (data : ResponseData) : bool :=
  match page_docs data with
  | [] => false
  | _ :: _ => truthy (pd_hasMore (pageDataOf data))
  end.

(** The events of the request of page [p]: the request, then the wait. *)
Definition page_events (limit : Z) (p : nat) : list Event :=
  [EvGet (Z.of_nat p) limit; EvDelay 100].

(** The state after the requests of pages [a], ..., [a + m - 1]. *)
Definition fetched (limit : Z) (a m : nat) (w : World) : World :=
  MkWorld (clockReads w) (sends w)
    (trace w ++ flat_map (page_events limit) (seq a m)).

(** The state after one call of the sink with [batch]. *)
Definition sent (batch : list SinkDocument) (w : World) : World :=
  MkWorld (clockReads w) (S (sends w)) (trace w ++ [EvSend batch]).


(** ** A concrete environment for the examples

    The configuration of the test suite, and fixed answers for the platform
    functions. *)

Definition testConfig : Config := MkConfig "test-plugin" 10 2 100.

Definition sample_stringify : RawDocument → string := λ _, "{}".
Definition sample_md5 : string → string := λ _, "99914b932bd37a50b983c5e7c90ae93b".
Definition sample_decimal : Z → string := pretty.
Definition sample_iso : Z → string := λ _, "2024-01-01T00:00:00.000Z".
Definition sample_buffer : JsVal → JsResult (list Byte.byte) :=
  λ _, Rejected (MkError "TypeError" "ERR_INVALID_ARG_TYPE").
Definition sample_clock : nat → Z := λ n, 1704067200000 + Z.of_nat n.

Definition sampleDoc (name : string) : SinkDocument :=
  MkSinkDocument (VStr name) (VStr "Untitled") [] "PLAIN_TEXT" ∅.

Definition throttled : JsError := MkError "ThrottlingException" "Rate exceeded".

(** A sink that rejects its first [k] calls and accepts the later ones, one
    that accepts its first [k] calls and rejects the later ones, and one
    that rejects every call. *)
Definition flaky_sink (k : nat) : nat → list SinkDocument → JsResult SinkResponse :=
  λ n _, if (n <? k)%nat then Rejected throttled else Resolved (MkSinkResponse []).

Definition dying_sink (k : nat) : nat → list SinkDocument → JsResult SinkResponse :=
  λ n _, if (n <? k)%nat then Resolved (MkSinkResponse []) else Rejected throttled.

Definition failing_sink : nat → list SinkDocument → JsResult SinkResponse :=
  dying_sink 0.

(** A source with two pages: the first has one document and announces
    more, the second has one document and announces the end. *)
Definition two_pages : Z → Z → JsResult ResponseData := λ page _,
  if page =? 1
  then Resolved (DataObject (Some [{[ "id" := VStr "a" ]}]) None
                   (VBool true) VUndefined (VNum 2) VUndefined)
  else Resolved (DataObject None (Some [{[ "id" := VStr "b" ]}])
                   VUndefined (VBool false) VUndefined (VNum 2)).

(** A source whose first page is empty. *)
Definition empty_source : Z → Z → JsResult ResponseData := λ _ _,
  Resolved (DataObject (Some []) None (VBool false) VUndefined
              (VNum 0) VUndefined).

Definition sample_transform : RawDocument → M SinkDocument :=
  transformDocument testConfig sample_stringify sample_md5 sample_decimal
    sample_iso sample_buffer sample_clock.

(** ** Vocabulary of the further properties *)


(** The calls of a run that sends batch number [k] once and then [m_k]
    times again, [m_k] being the [k]-th element of [ms]. *)
Definition blocks (batches : list (list SinkDocument)) (ms : list nat)
    : list (list SinkDocument) :=
  concat (zip_with (λ b m, replicate (S m) b) batches ms).

(** The events of a run of [processBatches] in which every batch goes
    through at its first call: the calls in order, and a wait of 1000 ms
    after every call but the last. *)
Fixpoint accepted_events (batches : list (list SinkDocument)) : list Event :=
  match batches with
  | [] => []
  | batch :: rest =>
      EvSend batch
        :: match rest with
           | [] => []
           | _ :: _ => EvDelay 1000 :: accepted_events rest
           end
  end.

(** Configurations with one document for each batch: with a budget of two
    retries, and without a budget. *)
Definition unitBatchConfig : Config := MkConfig "test-plugin" 1 2 100.
Definition noRetryConfig : Config := MkConfig "test-plugin" 1 0 100.

Definition three_docs : list SinkDocument :=
  [sampleDoc "a"; sampleDoc "b"; sampleDoc "c"].



Definition bad_document_source : Z → Z → JsResult ResponseData := λ _ _,
  Resolved (DataArray [{[ "id" := VStr "a" ]}; {[ "content" := VNum 5 ]}]).

(** ** The batcher and the growth of an array

    An array cannot grow without end. The language lets it hold 2^32 - 1
    elements: the [push] that would make it longer throws a RangeError.
    The engine may give up before: when it finds no memory for the array,
    which is a fatal error that ends the process and that no [catch]
    sees. [capacity] is the number of elements up to which the running
    engine lets the array of the batches grow. A loop that comes to an end
    stays far below both, and [createBatches_loop] above leaves them out;
    they decide what becomes of a loop whose index does not advance. *)

Definition MAX_ARRAY_LENGTH : Z := 2 ^ 32 - 1.

(** What stops the growth of an array. *)
Inductive GrowthFailure : Type :=
  | InvalidArrayLength  (* RangeError: Invalid array length *)
  | OutOfMemory.        (* fatal error of the engine, the process is aborted *)

(** How a run of the batcher stands after some iterations. *)
Inductive BatcherRun (A : Type) : Type :=
  | Batches (batches : list (list A))  (* it has returned the batches *)
  | Failed (failure : GrowthFailure)   (* it has ended with a failure *)
  | AtWork.                            (* the loop is still at work *)
Arguments Batches {A} batches.
Arguments Failed {A} failure.
Arguments AtWork {A}.

Section BatcherRun.
Context {A : Type}.
Variable capacity : Z.

(** [arr.push(x)]: the array after the call, or what stops it. *)
Definition Array_push {B : Type} (arr : list B) (x : B)
    : GrowthFailure + list B :=
  let len := Z.of_nat (length arr) in
  if MAX_ARRAY_LENGTH <=? len then inl InvalidArrayLength
  else if capacity <=? len then inl OutOfMemory
  else inr (arr ++ [x]).

(** The [for] loop of [createBatches] with this [push]; one unit of fuel
    is one iteration. *)
Fixpoint createBatches_run_loop (fuel : nat) (documents : list A)
    (batchSize i : Z) (batches : list (list A)) : BatcherRun A :=
  if i <? Z.of_nat (length documents) then
    match fuel with
    | O => AtWork
    | S fuel' =>
        match Array_push batches (slice documents i (i + batchSize)) with
        | inr batches' =>
            createBatches_run_loop fuel' documents batchSize (i + batchSize)
              batches'
        | inl failure => Failed failure
        end
    end
  else Batches batches.

Definition createBatches_run (fuel : nat) (documents : list A) (batchSize : Z)
    : BatcherRun A :=
  createBatches_run_loop fuel documents batchSize 0 [].

(** The number of batches that the array takes, and what stops it then. *)
Definition growth_limit : Z := Z.min capacity MAX_ARRAY_LENGTH.

Definition growth_failure : GrowthFailure :=
  if MAX_ARRAY_LENGTH <=? capacity then InvalidArrayLength else OutOfMemory.

End BatcherRun.

(** ** The configuration store ([config.js])

    The values a configuration holds are primitives and plain objects.
    The object of the class is a tree without sharing: the constructor
    builds it from literals, and [set] only adds fresh objects, so that the
    mutation in place is the replacement of a subtree; a configuration in
    which one object is reached by two paths has no counterpart here.
    [read] and [assign] know the own properties. What [obj[key]] finds on
    a built-in prototype ([constructor], [toString], [__proto__], ...) is
    not described: [config_get] and [config_set] are [get] and [set] for
    the paths of which no piece names such a member, and [Config_get] and
    [Config_set] below give no answer for the other paths. *)
#[warnings="-register-all"]
Inductive Setting : Type :=
  | SUndefined
  | SNull
  | SBool (b : bool)
  | SNum (n : Z)
  | SNaN
  | SStr (s : string)
  | SObj (fields : gmap string Setting).

(** ToBoolean. *)
Definition truthyS (v : Setting) : bool :=
  match v with
  | SUndefined | SNull | SNaN => false
  | SBool b => b
  | SNum n => negb (n =? 0)
  | SStr s => negb (String.eqb s "")
  | SObj _ => true
  end.

(** [a || b] *)
Definition or_default (a b : Setting) : Setting := if truthyS a then a else b.

(** The character with the given code. *)
Definition char_is (code : N) (c : Ascii.ascii) : bool :=
  (Ascii.N_of_ascii c =? code)%N.

(** [path.split('.')]: the pieces between the dots (code 46); there is
    always at least one. *)
Fixpoint split_dots (path : string) : list string :=
  match path with
  | EmptyString => [""]
  | String c rest =>
      if char_is 46 c then "" :: split_dots rest
      else match split_dots rest with
           | key :: keys => String c key :: keys
           | [] => [String c ""]
           end
  end.

(** The own properties of a string: its length and its characters, under
    the decimal notation of their index. *)
Definition string_prop (s key : string) : Setting :=
  if String.eqb key "length" then SNum (Z.of_nat (String.length s))
  else
    match find (λ i : nat, String.eqb (pretty i) key) (seq 0 (String.length s)) with
    | Some i =>
        match String.get i s with
        | Some c => SStr (String c "")
        | None => SUndefined
        end
    | None => SUndefined
    end.

(** [obj[key]] for an [obj] that is neither [undefined] nor [null]. *)
Definition read (obj : Setting) (key : string) : Setting :=
  match obj with
  | SObj fields => default SUndefined (fields !! key)
  | SStr s => string_prop s key
  | _ => SUndefined
  end.

(** [obj?.[key]] *)
Definition read_opt (obj : Setting) (key : string) : Setting :=
  match obj with
  | SUndefined | SNull => SUndefined
  | _ => read obj key
  end.

Definition config_get_keys (config : Setting) (keys : list string) : Setting :=
  fold_left read_opt keys config.

(** [get(path)] *)
Definition config_get (config : Setting) (path : string) : Setting :=
  config_get_keys config (split_dots path).

Definition cannot_set : JsError := MkError "TypeError" "Cannot create property".
Definition cannot_read : JsError :=
  MkError "TypeError" "Cannot read properties of undefined".

(** [obj[key] = value] in strict mode (the body of a class is strict): the
    object after the assignment, and the error thrown, if any. Only an
    object takes a property. *)
Definition assign (obj : Setting) (key : string) (value : Setting)
    : Setting * option JsError :=
  match obj with
  | SObj fields => (SObj (<[key := value]> fields), None)
  | SUndefined | SNull => (obj, Some cannot_read)
  | _ => (obj, Some cannot_set)
  end.

(** What [obj] is once its property [key], an object that [obj] refers to,
    has become [child]; a primitive has no such property. *)
Definition with_child (obj : Setting) (key : string) (child : Setting) : Setting :=
  match obj with
  | SObj fields => SObj (<[key := child]> fields)
  | _ => obj
  end.

(** The reducer of [set] run from [obj] over [keys], followed by
    [target[lastKey] = value]: [obj] after the call, and the error thrown,
    if any. *)
Fixpoint config_set_keys (obj : Setting) (keys : list string)
    (lastKey : string) (value : Setting) : Setting * option JsError :=
  match keys with
  | [] => assign obj lastKey value
  | key :: keys' =>
      match obj with
      | SUndefined | SNull => (obj, Some cannot_read)
      | _ =>
          let '(obj1, error) :=
            if truthyS (read obj key) then (obj, None)
            else assign obj key (SObj ∅) in
          match error with
          | Some e => (obj1, Some e)
          | None =>
              let '(child, error') :=
                config_set_keys (read obj1 key) keys' lastKey value in
              (with_child obj1 key child, error')
          end
      end
  end.

(** [set(path, value)]: [keys.pop()] takes the last piece off. *)
Definition config_set (config : Setting) (path : string) (value : Setting)
    : Setting * option JsError :=
  let keys := split_dots path in
  config_set_keys config (removelast keys) (List.last keys "") value.

(** *** Paths through inherited members

    [obj[key]] also finds what [obj] inherits from the prototype of its
    kind: a method, an accessor like [__proto__], or a value. For a path
    with such a piece the result of [get] and [set] depends on these
    shared objects, and [set] may write to them; the model gives [None]
    there. The names are those that the language defines on
    [Object.prototype], [String.prototype], [Number.prototype] and
    [Boolean.prototype], and whatever else the running engine or the
    application has put there, which [more] tells. The [length] of
    [String.prototype] is not among them: every string has its own. *)
Definition Object_prototype_names : list string :=
  ["__proto__"; "constructor"; "hasOwnProperty"; "isPrototypeOf";
   "propertyIsEnumerable"; "toLocaleString"; "toString"; "valueOf";
   "__defineGetter__"; "__defineSetter__"; "__lookupGetter__";
   "__lookupSetter__"].

Definition String_prototype_names : list string :=
  ["anchor"; "at"; "big"; "blink"; "bold"; "charAt"; "charCodeAt";
   "codePointAt"; "concat"; "endsWith"; "fixed"; "fontcolor"; "fontsize";
   "includes"; "indexOf"; "isWellFormed"; "italics"; "lastIndexOf"; "link";
   "localeCompare"; "match"; "matchAll"; "normalize"; "padEnd"; "padStart";
   "repeat"; "replace"; "replaceAll"; "search"; "slice"; "small"; "split";
   "startsWith"; "strike"; "sub"; "substr"; "substring"; "sup";
   "toLocaleLowerCase"; "toLocaleUpperCase"; "toLowerCase"; "toUpperCase";
   "toWellFormed"; "trim"; "trimEnd"; "trimLeft"; "trimRight"; "trimStart"].

Definition Number_prototype_names : list string :=
  ["toExponential"; "toFixed"; "toPrecision"].

Definition inherited (more : string → bool) (key : string) : bool :=
  existsb (String.eqb key)
    (Object_prototype_names ++ String_prototype_names ++ Number_prototype_names)
  || more key.

Definition plain_path (more : string → bool) (path : string) : bool :=
  forallb (λ key, negb (inherited more key)) (split_dots path).

(** [get(path)] *)
Definition Config_get (more : string → bool) (config : Setting)
    (path : string) : option Setting :=
  if plain_path more path then Some (config_get config path) else None.

(** [set(path, value)]: the configuration after the call and the error
    thrown, if any. *)
Definition Config_set (more : string → bool) (config : Setting)
    (path : string) (value : Setting) : option (Setting * option JsError) :=
  if plain_path more path then Some (config_set config path value)
  else None.

(** An engine that defines nothing more. *)
Definition nothing_more : string → bool := λ _, false.

Definition required_keys : list string :=
  ["aws.qBusinessApplicationId"; "aws.dataSourceId"; "dataSource.baseUrl"].

(** The [missing] array of [validate]. *)
Definition missing_keys (config : Setting) : list string :=
  filter (λ key, truthyS (config_get config key) = false) required_keys.

(** [validate()] *)
Definition config_validate (config : Setting) : bool :=
  negb (0 <? length (missing_keys config))%nat.

(** *** The constructor *)

(** White space that [parseInt] skips (below U+0100). *)
Definition is_space (c : Ascii.ascii) : bool :=
  let n := Ascii.N_of_ascii c in
  ((9 <=? n) && (n <=? 13) || (n =? 32) || (n =? 160))%N.

Fixpoint trim_start (s : string) : string :=
  match s with
  | String c rest => if is_space c then trim_start rest else s
  | EmptyString => EmptyString
  end.

(** The value of a digit or a letter as a digit. *)
Definition digit_value (c : Ascii.ascii) : option N :=
  let n := Ascii.N_of_ascii c in
  if ((48 <=? n) && (n <=? 57))%N then Some (n - 48)%N
  else if ((97 <=? n) && (n <=? 122))%N then Some (n - 87)%N
  else if ((65 <=? n) && (n <=? 90))%N then Some (n - 55)%N
  else None.

(** The longest prefix of [s] made of digits of the radix, as a number;
    [acc] is what was read so far, [None] when nothing was. *)
Fixpoint parse_digits (radix : N) (s : string) (acc : option N) : option N :=
  match s with
  | String c rest =>
      match digit_value c with
      | Some d =>
          if (d <? radix)%N
          then parse_digits radix rest (Some (radix * default 0 acc + d)%N)
          else acc
      | None => acc
      end
  | EmptyString => acc
  end.

(** [parseInt(s)] without a radix: white space, a sign, [0x] or [0X] for
    radix 16, then digits; NaN when there is no digit. Both zeros are
    [SNum 0]. The value is the integer that the digits denote: it is the
    number of JavaScript as long as it is below 2^53 in absolute value,
    beyond which the language rounds it to a double. *)
Definition parseInt_string (s : string) : Setting :=
  let s := trim_start s in
  let '(sign, s) :=
    match s with
    | String c rest =>
        if char_is 45 c then (-1, rest)          (* - *)
        else if char_is 43 c then (1, rest)      (* + *)
        else (1, s)
    | EmptyString => (1, s)
    end in
  let '(radix, s) :=
    match s with
    | String c0 (String c1 rest) =>
        if char_is 48 c0 && (char_is 120 c1 || char_is 88 c1)   (* 0x, 0X *)
        then (16%N, rest)
        else (10%N, s)
    | _ => (10%N, s)
    end in
  match parse_digits radix s None with
  | Some n => SNum (sign * Z.of_N n)
  | None => SNaN
  end.

(** [parseInt(v)]: the argument is converted to a string first, and the
    names [undefined], [null], [true], [NaN], ... hold no digit. *)
Definition parseInt (v : Setting) : Setting :=
  match v with
  | SStr s => parseInt_string s
  | SNum n => SNum n
  | _ => SNaN
  end.

(** [process.env.NAME] *)
Definition env_var (env : gmap string string) (name : string) : Setting :=
  match env !! name with
  | Some s => SStr s
  | None => SUndefined
  end.

(** [this.config] as the constructor leaves it. *)
Definition Config_new (env : gmap string string) : Setting :=
  SObj
    (<["aws" :=
        SObj (<["region" := or_default (env_var env "AWS_REGION") (SStr "us-east-1")]>
             (<["qBusinessApplicationId" := env_var env "Q_BUSINESS_APPLICATION_ID"]>
             (<["dataSourceId" := env_var env "Q_BUSINESS_DATA_SOURCE_ID"]>
             (<["indexId" := env_var env "Q_BUSINESS_INDEX_ID"]> ∅))))]>
    (<["dataSource" :=
        SObj (<["type" := or_default (env_var env "DATA_SOURCE_TYPE") (SStr "api")]>
             (<["baseUrl" := env_var env "DATA_SOURCE_BASE_URL"]>
             (<["apiKey" := env_var env "DATA_SOURCE_API_KEY"]>
             (<["username" := env_var env "DATA_SOURCE_USERNAME"]>
             (<["password" := env_var env "DATA_SOURCE_PASSWORD"]>
             (<["batchSize" :=
                 or_default (parseInt (env_var env "BATCH_SIZE")) (SNum 100)]>
             (<["syncInterval" :=
                 or_default (parseInt (env_var env "SYNC_INTERVAL")) (SNum 3600000)]>
              ∅)))))))]>
    (<["plugin" :=
        SObj (<["name" := or_default (env_var env "PLUGIN_NAME") (SStr "custom-plugin")]>
             (<["version" := or_default (env_var env "PLUGIN_VERSION") (SStr "1.0.0")]>
             (<["logLevel" := or_default (env_var env "LOG_LEVEL") (SStr "info")]>
             (<["maxRetries" :=
                 or_default (parseInt (env_var env "MAX_RETRIES")) (SNum 3)]>
             (<["retryDelay" :=
                 or_default (parseInt (env_var env "RETRY_DELAY")) (SNum 1000)]>
              ∅)))))]> ∅))).

(** The settings that the plugin manager and the connector read with
    [config.get], when the name is a string and the three numbers are
    numbers. *)
Definition settings (config : Setting) : option Config :=
  match config_get config "plugin.name",
        config_get config "dataSource.batchSize",
        config_get config "plugin.maxRetries",
        config_get config "plugin.retryDelay" with
  | SStr name, SNum batchSize, SNum maxRetries, SNum retryDelay =>
      Some (MkConfig name batchSize maxRetries retryDelay)
  | _, _, _, _ => None
  end.

(** A value below which [set] can go on: a falsy value, which [set]
    replaces by a fresh object, or an object. *)
Definition passable (v : Setting) : Prop :=
  truthyS v = false ∨ ∃ fields, v = SObj fields.

(** An environment with the three required variables. *)
Definition valid_env : gmap string string :=
  {[ "Q_BUSINESS_APPLICATION_ID" := "app";
     "Q_BUSINESS_DATA_SOURCE_ID" := "ds";
     "DATA_SOURCE_BASE_URL" := "https://api.example.com" ]}.

(** * Properties *)

(** ** The batcher *)

Section BatcherFacts.
Context {A : Type}.
Implicit Types (documents arr : list A).

Lemma slice_forward (arr : list A) (i s : Z) :
  0 ≤ i → 0 < s → i < Z.of_nat (length arr) →
  slice arr i (i + s) =
    take (Z.to_nat (Z.min s (Z.of_nat (length arr) - i)))
         (drop (Z.to_nat i) arr).
Proof.
  intros Hi Hs Hlt. unfold slice.
  destruct (Z.ltb_spec i 0); [lia|].
  destruct (Z.ltb_spec (i + s) 0); [lia|].
  f_equal; [|f_equal; lia]. lia.
Qed.

Lemma ceil_div_zero (s : Z) : 0 < s → ceil_div 0 s = 0.
Proof. intros Hs. unfold ceil_div. apply Z.div_small. lia. Qed.

Lemma ceil_div_step (n s : Z) :
  0 < s → 0 < n → ceil_div n s = 1 + ceil_div (Z.max 0 (n - s)) s.
Proof.
  intros Hs Hn. unfold ceil_div.
  destruct (Z.le_gt_cases n s) as [Hle|Hgt].
  - rewrite Z.max_l by lia.
    replace ((0 + s - 1) / s) with 0 by (symmetry; apply Z.div_small; lia).
    replace (n + s - 1) with ((n - 1) + 1 * s) by lia.
    rewrite Z.div_add by lia. rewrite Z.div_small; lia.
  - rewrite Z.max_r by lia.
    replace (n + s - 1) with ((n - s + s - 1) + 1 * s) by lia.
    rewrite Z.div_add by lia. lia.
Qed.

Lemma ceil_div_pos (n s : Z) : 0 < s → 0 < n → 0 < ceil_div n s.
Proof.
  intros Hs Hn. rewrite ceil_div_step by done.
  assert (0 ≤ ceil_div (Z.max 0 (n - s)) s); [|lia].
  unfold ceil_div. apply Z.div_pos; lia.
Qed.

(** Invariant of the loop for a positive batch size: from index [i] on it
    appends the chunks of the remaining documents. *)
Lemma createBatches_loop_pos (documents : list A) (s : Z) :
  0 < s →
  ∀ (fuel : nat) (i : Z) (batches : list (list A)),
    0 ≤ i →
    Z.of_nat (length documents) - i ≤ Z.of_nat fuel →
    ∃ rest,
      createBatches_loop fuel documents s i batches = Some (batches ++ rest)
      ∧ concat rest = drop (Z.to_nat i) documents
      ∧ Z.of_nat (length rest)
        = ceil_div (Z.max 0 (Z.of_nat (length documents) - i)) s
      ∧ full_but_last s rest
      ∧ bounded_batches s rest.
Proof.
  intros Hs. unfold full_but_last, bounded_batches.
  induction fuel as [|fuel IH]; intros i batches Hi Hfuel.
  - exists []. simpl. destruct (Z.ltb_spec i (Z.of_nat (length documents))); [lia|].
    rewrite app_nil_r, Z.max_l, ceil_div_zero by lia.
    split_and!; [done| |done| |constructor].
    + rewrite drop_ge; [done|lia].
    + intros k b Hk. by rewrite lookup_nil in Hk.
  - simpl. destruct (Z.ltb_spec i (Z.of_nat (length documents))) as [Hlt|Hge].
    + destruct (IH (i + s) (batches ++ [slice documents i (i + s)]))
        as (rest & Hrun & Hcat & Hlen & Hfull & Hbnd); [lia|lia|].
      set (b := slice documents i (i + s)) in *.
      assert (Hb : b = take (Z.to_nat (Z.min s (Z.of_nat (length documents) - i)))
                         (drop (Z.to_nat i) documents))
        by (apply slice_forward; lia).
      assert (Hblen : Z.of_nat (length b) = Z.min s (Z.of_nat (length documents) - i)).
      { rewrite Hb, length_take, length_drop. lia. }
      exists (b :: rest). rewrite Hrun, <- app_assoc. simpl.
      split_and!; [done| | | |].
      * rewrite Hcat, Hb.
        destruct (Z.le_gt_cases s (Z.of_nat (length documents) - i)) as [Hle|Hgt].
        -- rewrite Z.min_l by lia.
           replace (Z.to_nat (i + s)) with (Z.to_nat i + Z.to_nat s)%nat by lia.
           rewrite <- drop_drop. apply take_drop.
        -- rewrite Z.min_r by lia.
           rewrite (drop_ge documents (Z.to_nat (i + s))) by lia.
           rewrite app_nil_r. apply take_ge. rewrite length_drop. lia.
      * rewrite (Z.max_r 0 (Z.of_nat (length documents) - i)) by lia.
        rewrite (ceil_div_step (Z.of_nat (length documents) - i) s) by lia.
        replace (Z.of_nat (length documents) - i - s)
          with (Z.of_nat (length documents) - (i + s)) by lia.
        rewrite <- Hlen. lia.
      * intros [|k] b' Hk Hlast; simpl in *.
        -- injection Hk as <-. rewrite Hblen.
           assert (0 < Z.of_nat (length rest)) as Hne by lia.
           rewrite Hlen in Hne.
           destruct (Z.le_gt_cases (Z.of_nat (length documents) - (i + s)) 0).
           ++ rewrite Z.max_l, ceil_div_zero in Hne by lia. lia.
           ++ lia.
        -- apply (Hfull k b' Hk). lia.
      * constructor; [|done]. split; [|lia].
        intros ->. simpl in Hblen. lia.
    + exists []. rewrite app_nil_r, Z.max_l, ceil_div_zero by lia.
      split_and!; [done| |done| |constructor].
      * rewrite drop_ge; [done|lia].
      * intros k b Hk. by rewrite lookup_nil in Hk.
Qed.

(** C1. For a positive batch size [s] the batcher returns (with fuel for
    one iteration per document) batches whose concatenation in order is
    the input, whose number is ceil(len / s), of which all but possibly
    the last have exactly [s] elements, and each of which is non-empty
    and has at most [s] elements. *)
Theorem createBatches_partition (documents : list A) (s : Z) (fuel : nat) :
  0 < s → (length documents ≤ fuel)%nat →
  ∃ batches,
    createBatches fuel documents s = Some batches
    ∧ concat batches = documents
    ∧ Z.of_nat (length batches) = ceil_div (Z.of_nat (length documents)) s
    ∧ full_but_last s batches
    ∧ bounded_batches s batches.
Proof.
  intros Hs Hfuel.
  destruct (createBatches_loop_pos documents s Hs fuel 0 [])
    as (rest & Hrun & Hcat & Hlen & Hfull & Hbnd); [lia|lia|].
  exists rest. unfold createBatches. rewrite Hrun.
  split_and!; [done|done| |done|done].
  rewrite Hlen. f_equal. lia.
Qed.

(** The result of the loop is the array it was given, with batches added. *)
Lemma createBatches_loop_grows (documents : list A) (s : Z) :
  ∀ (fuel : nat) (i : Z) (batches res : list (list A)),
    createBatches_loop fuel documents s i batches = Some res →
    (length batches ≤ length res)%nat.
Proof.
  induction fuel as [|fuel IH]; intros i batches res Hrun;
    cbn [createBatches_loop] in Hrun;
    destruct (i <? Z.of_nat (length documents)).
  - discriminate.
  - injection Hrun as <-. lia.
  - apply IH in Hrun. rewrite length_app in Hrun. simpl in Hrun. lia.
  - injection Hrun as <-. lia.
Qed.

Lemma Array_push_below {B : Type} (capacity : Z) (arr : list B) (x : B) :
  Z.of_nat (length arr) < growth_limit capacity →
  Array_push capacity arr x = inr (arr ++ [x]).
Proof.
  unfold growth_limit, Array_push. intros Hlt.
  destruct (Z.leb_spec MAX_ARRAY_LENGTH (Z.of_nat (length arr))); [lia|].
  destruct (Z.leb_spec capacity (Z.of_nat (length arr))); [lia|done].
Qed.

Lemma Array_push_full {B : Type} (capacity : Z) (arr : list B) (x : B) :
  Z.of_nat (length arr) = growth_limit capacity →
  Array_push capacity arr x = inl (growth_failure capacity).
Proof.
  unfold growth_limit, growth_failure, Array_push. intros Heq.
  destruct (Z.leb_spec MAX_ARRAY_LENGTH (Z.of_nat (length arr))),
           (Z.leb_spec MAX_ARRAY_LENGTH capacity),
           (Z.leb_spec capacity (Z.of_nat (length arr))); (done || lia).
Qed.

(** A run that stays within the growth of the array is the run of
    [createBatches_loop]. *)
Lemma createBatches_run_loop_agrees (capacity : Z) (documents : list A) (s : Z) :
  ∀ (fuel : nat) (i : Z) (batches res : list (list A)),
    createBatches_loop fuel documents s i batches = Some res →
    Z.of_nat (length res) ≤ growth_limit capacity →
    createBatches_run_loop capacity fuel documents s i batches = Batches res.
Proof.
  induction fuel as [|fuel IH]; intros i batches res Hrun Hres;
    cbn [createBatches_loop createBatches_run_loop] in *;
    destruct (i <? Z.of_nat (length documents)).
  - discriminate.
  - by injection Hrun as <-.
  - pose proof (createBatches_loop_grows _ _ _ _ _ _ Hrun) as Hlen.
    rewrite length_app in Hlen. simpl in Hlen.
    rewrite Array_push_below by lia. by apply IH.
  - by injection Hrun as <-.
Qed.

(** With a positive batch size the loop ends, whether the array can grow
    or not. *)
Lemma createBatches_run_loop_ends (capacity : Z) (documents : list A) (s : Z) :
  0 < s →
  ∀ (fuel : nat) (i : Z) (batches : list (list A)),
    0 ≤ i →
    Z.of_nat (length documents) - i ≤ Z.of_nat fuel →
    createBatches_run_loop capacity fuel documents s i batches ≠ AtWork.
Proof.
  intros Hs. induction fuel as [|fuel IH]; intros i batches Hi Hfuel;
    cbn [createBatches_run_loop];
    destruct (Z.ltb_spec i (Z.of_nat (length documents))); try done; [lia|].
  destruct (Array_push capacity batches (slice documents i (i + s))); [done|].
  apply IH; lia.
Qed.

(** For a batch size that is not positive the index never passes a
    non-empty array: every iteration pushes one more batch, and the loop
    is at work until the array of the batches cannot grow. *)
Lemma createBatches_run_loop_nonpos (capacity : Z) (documents : list A) (s : Z) :
  documents ≠ [] → s ≤ 0 →
  ∀ (fuel : nat) (i : Z) (batches : list (list A)),
    i ≤ 0 →
    Z.of_nat (length batches) ≤ growth_limit capacity →
    createBatches_run_loop capacity fuel documents s i batches
    = if Z.of_nat (length batches) + Z.of_nat fuel <=? growth_limit capacity
      then AtWork else Failed (growth_failure capacity).
Proof.
  intros Hne Hs.
  assert (Hlen : 0 < Z.of_nat (length documents))
    by (destruct documents; [done|simpl; lia]).
  induction fuel as [|fuel IH]; intros i batches Hi Hb;
    cbn [createBatches_run_loop];
    destruct (Z.ltb_spec i (Z.of_nat (length documents))); try lia.
  - destruct (Z.leb_spec (Z.of_nat (length batches) + Z.of_nat 0)
                (growth_limit capacity)); [done|lia].
  - destruct (Z.lt_ge_cases (Z.of_nat (length batches)) (growth_limit capacity))
      as [Hlt|Hge].
    + rewrite Array_push_below by done.
      rewrite IH; [|lia|rewrite length_app; simpl; lia].
      rewrite length_app. simpl.
      destruct (Z.leb_spec (Z.of_nat (length batches + 1) + Z.of_nat fuel)
                  (growth_limit capacity)),
               (Z.leb_spec (Z.of_nat (length batches) + Z.of_nat (S fuel))
                  (growth_limit capacity)); (done || lia).
    + rewrite Array_push_full by lia.
      destruct (Z.leb_spec (Z.of_nat (length batches) + Z.of_nat (S fuel))
                  (growth_limit capacity)); [lia|done].
Qed.

Lemma ceil_div_le (n s : Z) : 0 < s → 0 ≤ n → ceil_div n s ≤ n.
Proof.
  intros Hs Hn. unfold ceil_div.
  assert ((n + s - 1) / s < n + 1); [|lia].
  apply Z.div_lt_upper_bound; [done|nia].
Qed.

(** C10 (amended). With a positive batch size the loop of the batcher ends
    for every input, and it returns the batches whenever the array can
    take them (as many as documents, at most). With a batch size of zero
    or less and a non-empty input the index never passes the array, so
    that no result ever comes out; but the loop pushes one batch in each
    iteration, and the run does come to an end: it is at work as long as
    the array of the batches can grow, and ends in the iteration after
    that, with the RangeError of [push] at 2^32 - 1 elements when the
    engine lets the array get there, and with the fatal error of the
    engine otherwise. *)
Theorem createBatches_termination (capacity : Z) (documents : list A) (s : Z) :
  (0 < s →
   ∀ fuel, (length documents ≤ fuel)%nat →
     createBatches_run capacity fuel documents s ≠ AtWork
     ∧ (Z.of_nat (length documents) ≤ growth_limit capacity →
        ∃ batches,
          createBatches_run capacity fuel documents s = Batches batches
          ∧ createBatches fuel documents s = Some batches))
  ∧ (s ≤ 0 → documents ≠ [] → 0 ≤ capacity →
     ∀ fuel,
       createBatches_run capacity fuel documents s
       = if Z.of_nat fuel <=? growth_limit capacity then AtWork
         else Failed (growth_failure capacity)).
Proof.
  split.
  - intros Hs fuel Hfuel. split.
    + apply createBatches_run_loop_ends; [done|lia|lia].
    + intros Harr.
      destruct (createBatches_loop_pos documents s Hs fuel 0 [])
        as (rest & Hrun & _ & Hlen & _); [lia|lia|].
      exists rest. split; [|apply Hrun].
      apply createBatches_run_loop_agrees; [apply Hrun|].
      rewrite Hlen, Z.sub_0_r, Z.max_r by lia.
      etransitivity; [apply ceil_div_le; lia|done].
  - intros Hs Hne Hcap fuel. unfold createBatches_run.
    rewrite createBatches_run_loop_nonpos; [done|done|done|lia|].
    simpl. unfold growth_limit, MAX_ARRAY_LENGTH. lia.
Qed.

End BatcherFacts.

Lemma createBatches_partition_witness :
  ∃ batches,
    createBatches 5 [1; 2; 3; 4; 5] 2 = Some batches
    ∧ concat batches = [1; 2; 3; 4; 5]
    ∧ Z.of_nat (length batches) = ceil_div 5 2
    ∧ full_but_last 2 batches
    ∧ bounded_batches 2 batches.
Proof.
  apply (createBatches_partition [1; 2; 3; 4; 5] 2 5); [lia | simpl; lia].
Defined.

Lemma createBatches_termination_witness :
  (createBatches_run MAX_ARRAY_LENGTH 3 [1; 2; 3] 2 ≠ AtWork
   ∧ ∃ batches,
       createBatches_run MAX_ARRAY_LENGTH 3 [1; 2; 3] 2 = Batches batches
       ∧ createBatches 3 [1; 2; 3] 2 = Some batches)
  ∧ createBatches_run MAX_ARRAY_LENGTH 3 [1; 2; 3] (-1) = AtWork.
Proof.
  split.
  - destruct (proj1 (createBatches_termination MAX_ARRAY_LENGTH [1; 2; 3] 2)
                ltac:(lia) 3%nat ltac:(simpl; lia)) as [Hend Hret].
    split; [apply Hend|]. apply Hret. by vm_compute.
  - apply (proj2 (createBatches_termination MAX_ARRAY_LENGTH [1; 2; 3] (-1)));
      [lia | done | by vm_compute].
Defined.

(** C10, as stated, fails: with a batch size of zero the run on an array
    of one document does come to an end. An engine that has memory for
    the whole array ends it with the RangeError of the [push] number
    2^32; one that has memory for a million batches ends it with its
    fatal error in the iteration after these. *)
Lemma createBatches_zero_size_ends :
  createBatches_run MAX_ARRAY_LENGTH (Z.to_nat (MAX_ARRAY_LENGTH + 1)) [1] 0
  = Failed InvalidArrayLength
  ∧ createBatches_run 1000000 (Z.to_nat (1000000 + 1)) [1] 0
    = Failed OutOfMemory.
Proof.
  unfold createBatches_run. split.
  - rewrite createBatches_run_loop_nonpos; [|done|lia|lia|by vm_compute].
    rewrite Z2Nat.id by (by vm_compute).
    change (Z.of_nat (length (@nil (list Z)))) with 0.
    change (growth_limit MAX_ARRAY_LENGTH) with MAX_ARRAY_LENGTH.
    destruct (Z.leb_spec (0 + (MAX_ARRAY_LENGTH + 1)) MAX_ARRAY_LENGTH);
      [lia|done].
  - rewrite createBatches_run_loop_nonpos; [|done|lia|lia|by vm_compute].
    change (Z.of_nat (length (@nil (list Z)))) with 0.
    rewrite Z2Nat.id by lia.
    change (growth_limit 1000000) with 1000000.
    destruct (Z.leb_spec (0 + (1000000 + 1)) 1000000); [lia|done].
Qed.

(** The test of the repository: 25 documents in batches of 10. *)
Example createBatches_25_by_10 :
  option_map (map length) (createBatches 25 (seq 0 25) 10)
  = Some [10; 10; 5]%nat.
Proof. reflexivity. Qed.

(** With a negative size the slices are taken from the end. *)
Example createBatches_negative_prefix :
  createBatches 3 [1; 2; 3] (-1) = None
  ∧ slice [1; 2; 3] 0 (-1) = [1; 2]
  ∧ slice [1; 2; 3] (-1) (-2) = [].
Proof. by vm_compute. Qed.

(** ** The document transformer *)

Section TransformerFacts.
Variable config : Config.
Variable JSON_stringify : RawDocument → string.
Variable md5_hex : string → string.
Variable decimal : Z → string.
Variable toISOString : Z → string.
Variable Buffer_from_object : JsVal → JsResult (list Byte.byte).
Variable clock : nat → Z.

Local Abbreviation transform :=
  (transformDocument config JSON_stringify md5_hex decimal toISOString
     Buffer_from_object clock).
Local Abbreviation generate :=
  (generateDocumentId config JSON_stringify md5_hex decimal clock).

Lemma truthy_js_or_r (a b : JsVal) : truthy b = true → truthy (a ||| b) = true.
Proof. intros Hb. unfold js_or. by destruct (truthy a) eqn:Ha. Qed.

Lemma append_nonempty (a b : string) : b ≠ "" → a +:+ b ≠ "".
Proof. intros Hb. destruct a; [done|]. discriminate. Qed.

Lemma truthy_VStr (s : string) : s ≠ "" → truthy (VStr s) = true.
Proof. intros Hs. simpl. by destruct s. Qed.

(** The generated id is a non-empty string. *)
Lemma generateDocumentId_truthy (document : RawDocument) (w : World) :
  ∃ s, generate document w
       = (Return (VStr s), MkWorld (S (clockReads w)) (sends w) (trace w))
       ∧ s ≠ "".
Proof.
  eexists. split; [reflexivity|].
  apply append_nonempty. discriminate.
Qed.

(** The optional attributes never touch the mandatory keys. *)
Lemma extractCustomAttributes_other (document : RawDocument) (key : string) :
  key ≠ "author" → key ≠ "category" → key ≠ "tags" →
  extractCustomAttributes document !! key = None.
Proof.
  intros Ha Hc Ht. unfold extractCustomAttributes.
  repeat case_match;
    repeat (rewrite lookup_insert_ne by done); apply lookup_empty.
Qed.

(** The expression handed to [Buffer.from]. *)
Local Abbreviation text_of document :=
  (prop document "content" ||| prop document "body" ||| VStr "").

(** C4 (amended). Whenever [content || body || ''] is a string (in
    particular when both fields are absent), [transformDocument] returns
    a document with a truthy id, a truthy title that is
    [title || name || 'Untitled'], the UTF-8 encoding of that string as
    content, the content type PLAIN_TEXT and the three mandatory
    attributes: [_source_uri] is [url || source || ''], and each
    timestamp is the field of the source or, when that is falsy, the ISO
    notation of a reading of the clock taken during the call. *)
Theorem transformDocument_total_on_text
    (document : RawDocument) (text : string) (w : World) :
  text_of document = VStr text →
  ∃ sd w',
    transform document w = (Return sd, w')
    ∧ truthy (doc_id sd) = true
    ∧ truthy (doc_title sd) = true
    ∧ doc_title sd
      = prop document "title" ||| prop document "name" ||| VStr "Untitled"
    ∧ doc_blob sd = utf8_encode text
    ∧ doc_contentType sd = "PLAIN_TEXT"
    ∧ doc_attributes sd !! "_source_uri"
      = Some (prop document "url" ||| prop document "source" ||| VStr "")
    ∧ (∃ n : nat,
         (clockReads w ≤ n)%nat
         ∧ doc_attributes sd !! "_created_at"
           = Some (prop document "createdAt" ||| VStr (toISOString (clock n))))
    ∧ (∃ n : nat,
         (clockReads w ≤ n)%nat
         ∧ doc_attributes sd !! "_updated_at"
           = Some (prop document "updatedAt" ||| VStr (toISOString (clock n)))).
Proof.
  intros Htext.
  unfold transformDocument, mbind, M_bind, or_else, new_Date_toISOString.
  destruct (generateDocumentId_truthy document w) as (gid & Hgen & Hgid).
  assert (Hid : ∃ v w1,
    (if truthy (prop document "id") then mret (prop document "id")
     else generate document) w = (Return v, w1)
    ∧ truthy v = true ∧ (clockReads w ≤ clockReads w1)%nat).
  { destruct (truthy (prop document "id")) eqn:Hi.
    - by exists (prop document "id"), w.
    - eexists _, _. rewrite Hgen. split; [done|].
      split; [by apply truthy_VStr | simpl; lia]. }
  destruct Hid as (v & w1 & -> & Hv & Hw1).
  rewrite Htext. simpl.
  unfold js_or at 1 2.
  destruct (truthy (prop document "createdAt")) eqn:Hc;
    destruct (truthy (prop document "updatedAt")) eqn:Hu; simpl;
    eexists _, _; (split; [reflexivity|]); simpl;
    (split_and!; [done | by apply truthy_js_or_r | done | done | done
                 | rewrite lookup_union_r by (by apply extractCustomAttributes_other);
                   by rewrite lookup_insert_eq
                 | | ]).
  all: eexists; (split; [|
    rewrite lookup_union_r by (by apply extractCustomAttributes_other);
    repeat (rewrite lookup_insert_ne by done); rewrite lookup_insert_eq;
    unfold js_or; rewrite ?Hc, ?Hu; reflexivity]);
    first [apply Nat.le_refl | simpl; lia].
Qed.

(** A truthy number or boolean as content makes [Buffer.from] throw. *)
Lemma transformDocument_refuses_number (document : RawDocument) (n : Z) (w : World) :
  prop document "content" = VNum n → n ≠ 0 →
  ∃ w', transform document w
        = (Throw (MkError "TypeError" "ERR_INVALID_ARG_TYPE"), w').
Proof.
  intros Hc Hn.
  assert (Htext : text_of document = VNum n).
  { rewrite Hc. unfold js_or. simpl.
    destruct (Z.eqb_spec n 0) as [?|_]; [done|]. simpl.
    by destruct (Z.eqb_spec n 0). }
  unfold transformDocument, mbind, M_bind, or_else.
  rewrite Htext. simpl.
  destruct (truthy (prop document "id")); simpl; eauto.
Qed.

(** C5 (amended). For a document whose [id] is truthy (present and not
    [''], [0], [null], [false] or NaN), the id expression gives the id of
    the source without running [generateDocumentId], every document that
    [transformDocument] returns carries exactly that id, and it does
    return one whenever [content || body || ''] is a string. *)
Theorem transformDocument_keeps_truthy_id (document : RawDocument) (w : World) :
  truthy (prop document "id") = true →
  or_else (prop document "id") (generate document) w
    = (Return (prop document "id"), w)
  ∧ (∀ sd w', transform document w = (Return sd, w') →
       doc_id sd = prop document "id")
  ∧ (∀ text, text_of document = VStr text →
       ∃ sd w', transform document w = (Return sd, w')
                ∧ doc_id sd = prop document "id").
Proof.
  intros Hid. split; [by unfold or_else; rewrite Hid|].
  assert (Hshape : ∀ sd w', transform document w = (Return sd, w') →
                   doc_id sd = prop document "id").
  { intros sd w'.
    unfold transformDocument, mbind, M_bind, or_else, new_Date_toISOString.
    rewrite Hid. simpl.
    destruct (Buffer_from Buffer_from_object (text_of document)); simpl;
      [|discriminate].
    destruct (truthy (prop document "createdAt"));
      destruct (truthy (prop document "updatedAt")); simpl;
      by intros [= <- _]. }
  split; [done|].
  intros text Htext.
  unfold transformDocument, mbind, M_bind, or_else, new_Date_toISOString.
  rewrite Hid, Htext. simpl.
  destruct (truthy (prop document "createdAt"));
    destruct (truthy (prop document "updatedAt")); simpl; eauto.
Qed.

End TransformerFacts.

Lemma transformDocument_total_on_text_witness :
  ∃ sd w',
    sample_transform ∅ initialWorld = (Return sd, w')
    ∧ truthy (doc_id sd) = true
    ∧ doc_title sd = VStr "Untitled"
    ∧ doc_blob sd = []
    ∧ doc_contentType sd = "PLAIN_TEXT"
    ∧ doc_attributes sd !! "_source_uri" = Some (VStr "")
    ∧ is_Some (doc_attributes sd !! "_created_at")
    ∧ is_Some (doc_attributes sd !! "_updated_at").
Proof.
  assert (Htext : prop (∅ : RawDocument) "content" ||| prop ∅ "body" ||| VStr ""
                  = VStr "") by (vm_compute; reflexivity).
  destruct (transformDocument_total_on_text testConfig sample_stringify
              sample_md5 sample_decimal sample_iso sample_buffer sample_clock
              ∅ "" initialWorld Htext)
    as (sd & w' & Hrun & Hid & _ & Htitle & Hblob & Htype & Huri
        & (n1 & _ & Hcreated) & (n2 & _ & Hupdated)).
  exists sd, w'. split_and!; eauto.
Defined.

(** C4, as stated, fails: a document whose content is the number 5 makes
    [transformDocument] throw a TypeError instead of returning. *)
Lemma transformDocument_numeric_content_throws :
  sample_transform {[ "content" := VNum 5 ]} initialWorld
  = (Throw (MkError "TypeError" "ERR_INVALID_ARG_TYPE"), MkWorld 1 0 []).
Proof. by vm_compute. Qed.

(** The scenario of the specification: title "T" and content "C" only. *)
Example transformDocument_title_and_content :
  ∃ sd w',
    sample_transform {[ "title" := VStr "T"; "content" := VStr "C" ]} initialWorld
    = (Return sd, w')
    ∧ doc_id sd = VStr "test-plugin-1704067200000-99914b93"
    ∧ doc_title sd = VStr "T"
    ∧ doc_blob sd = [Byte.x43]
    ∧ doc_attributes sd !! "_source_uri" = Some (VStr "").
Proof. eexists _, _. by vm_compute. Qed.

(** When the content is falsy the body is encoded in its place. *)
Example transformDocument_body_fallback :
  ∃ sd w',
    sample_transform {[ "id" := VStr "a"; "body" := VStr "B" ]} initialWorld
    = (Return sd, w')
    ∧ doc_blob sd = [Byte.x42].
Proof. eexists _, _. by vm_compute. Qed.

Lemma transformDocument_keeps_truthy_id_witness :
  ∃ sd w',
    sample_transform {[ "id" := VStr "test-123" ]} initialWorld = (Return sd, w')
    ∧ doc_id sd = VStr "test-123".
Proof.
  assert (Hid : truthy (prop ({[ "id" := VStr "test-123" ]} : RawDocument) "id")
                = true) by (vm_compute; reflexivity).
  destruct (transformDocument_keeps_truthy_id testConfig sample_stringify
              sample_md5 sample_decimal sample_iso sample_buffer sample_clock
              {[ "id" := VStr "test-123" ]} initialWorld Hid)
    as (_ & _ & Hreturns).
  destruct (Hreturns "") as (sd & w' & Hrun & Hsame); [vm_compute; reflexivity|].
  exists sd, w'. split; [apply Hrun|].
  rewrite Hsame. vm_compute; reflexivity.
Defined.

(** C5, as stated, fails: the explicit id [0] is falsy, so an id is
    generated in its place. *)
Lemma transformDocument_zero_id_replaced :
  ∃ sd w',
    sample_transform {[ "id" := VNum 0 ]} initialWorld = (Return sd, w')
    ∧ doc_id sd = VStr "test-plugin-1704067200000-99914b93"
    ∧ doc_id sd ≠ prop {[ "id" := VNum 0 ]} "id".
Proof. eexists _, _. split; [by vm_compute|]. split; [done|]. by vm_compute. Qed.

(** ** Uploading with retries *)

Section RetryFacts.
Variable config : Config.
Variable sinkSend : nat → list SinkDocument → JsResult SinkResponse.

Local Abbreviation maxRetries := (plugin_maxRetries config).
Local Abbreviation baseDelay := (plugin_retryDelay config).
Local Abbreviation after := (after_attempts (plugin_retryDelay config)).

Lemma after_attempts_zero batch a w : after batch a 0 w = w.
Proof.
  destruct w. unfold after_attempts. simpl.
  by rewrite Nat.add_0_r, app_nil_r.
Qed.

Lemma after_attempts_succ batch a m w :
  after batch (S a) m (after batch a 1 w) = after batch a (S m) w.
Proof.
  unfold after_attempts. simpl. rewrite <- app_assoc. simpl.
  f_equal. lia.
Qed.

Lemma after_attempts_last batch a m w :
  after batch (a + m) 1 (after batch a m w) = after batch a (S m) w.
Proof.
  unfold after_attempts. cbn [clockReads sends trace].
  rewrite (seq_S m a), flat_map_app, <- app_assoc.
  f_equal; first [lia | done].
Qed.

(** One iteration of the loop of [retryBatch]. *)
Lemma retryBatch_loop_step fuel batch (a : nat) w :
  Z.of_nat a ≤ maxRetries →
  retryBatch_loop config sinkSend (S fuel) batch (Z.of_nat a) w =
    match sinkSend (sends w) batch with
    | Resolved _ => (Return (), after batch a 1 w)
    | Rejected error =>
        if Z.of_nat a =? maxRetries then (Throw error, after batch a 1 w)
        else retryBatch_loop config sinkSend fuel batch (Z.of_nat (S a))
               (after batch a 1 w)
    end.
Proof.
  intros Ha. simpl.
  destruct (Z.leb_spec (Z.of_nat a) maxRetries); [|lia].
  unfold settle, uploadBatch, qBusinessClient_send, delay,
    after_attempts, log_event, attempt_events, mbind, M_bind.
  simpl. rewrite <- app_assoc, Nat.add_1_r. simpl.
  destruct (sinkSend (sends w) batch) as [response|error]; simpl; [done|].
  destruct (Z.of_nat a =? maxRetries); [done|].
  by rewrite Nat2Z.inj_succ, Z.add_1_r.
Qed.

(** Past the last attempt the loop is over. *)
Lemma retryBatch_loop_done fuel batch (a : Z) w :
  maxRetries < a →
  retryBatch_loop config sinkSend fuel batch a w = (Return (), w).
Proof.
  intros Ha. destruct fuel; simpl;
    by destruct (Z.leb_spec a maxRetries); [lia|].
Qed.

(** [m] failing attempts, none of them the last one, are followed by the
    next iteration. *)
Lemma retryBatch_loop_failures batch (m : nat) :
  ∀ (fuel a : nat) (w : World),
    Z.of_nat (a + m) ≤ maxRetries →
    (∀ j, (j < m)%nat → ∃ e, sinkSend (sends w + j) batch = Rejected e) →
    retryBatch_loop config sinkSend (m + fuel) batch (Z.of_nat a) w
    = retryBatch_loop config sinkSend fuel batch (Z.of_nat (a + m))
        (after batch a m w).
Proof.
  induction m as [|m IH]; intros fuel a w Hle Hfail.
  - by rewrite Nat.add_0_r, after_attempts_zero.
  - simpl Nat.add. rewrite retryBatch_loop_step by lia.
    destruct (Hfail 0%nat) as [e He]; [lia|].
    rewrite Nat.add_0_r in He. rewrite He.
    destruct (Z.eqb_spec (Z.of_nat a) maxRetries); [lia|].
    rewrite IH.
    + rewrite after_attempts_succ. do 2 f_equal. lia.
    + lia.
    + intros j Hj. destruct (Hfail (S j)) as [e' He']; [lia|].
      exists e'. rewrite <- He'. f_equal. simpl. lia.
Qed.

Lemma uploads_app (t1 t2 : list Event) :
  uploads (t1 ++ t2) = uploads t1 ++ uploads t2.
Proof. apply omap_app. Qed.

Lemma delays_app (t1 t2 : list Event) :
  delays (t1 ++ t2) = delays t1 ++ delays t2.
Proof. apply omap_app. Qed.

Lemma uploads_attempts batch (m a : nat) :
  uploads (flat_map (attempt_events baseDelay batch) (seq a m))
  = replicate m batch.
Proof.
  revert a. induction m as [|m IH]; intros a; [done|].
  simpl. unfold uploads in *. simpl. by rewrite IH.
Qed.




(** Failures only: [retryBatch] throws the error of attempt number
    [maxRetries]. *)
Lemma retryBatch_exhaustion_run batch batchNumber (w : World) :
  1 ≤ maxRetries →
  (∀ j, ∃ e, sinkSend (sends w + j) batch = Rejected e) →
  ∃ e,
    sinkSend (sends w + (Z.to_nat maxRetries - 1)) batch = Rejected e
    ∧ retryBatch config sinkSend batch batchNumber w
      = (Throw e, after batch 1 (Z.to_nat maxRetries) w).
Proof.
  intros Hmax Hfail. unfold retryBatch.
  destruct (Hfail (Z.to_nat maxRetries - 1)%nat) as [e He].
  exists e. split; [done|].
  pose proof (retryBatch_loop_failures batch (Z.to_nat maxRetries - 1) 1 1 w)
    as Hrun.
  replace (Z.to_nat maxRetries - 1 + 1)%nat with (Z.to_nat maxRetries)
    in Hrun by lia.
  change (Z.of_nat 1) with 1 in Hrun.
  rewrite Hrun by (eauto || lia). clear Hrun.
  rewrite retryBatch_loop_step by lia.
  cbn [sends after_attempts]. rewrite He.
  destruct (Z.eqb_spec (Z.of_nat (1 + (Z.to_nat maxRetries - 1))) maxRetries); [|lia].
  rewrite after_attempts_last. do 2 f_equal. lia.
Qed.

(** Whatever the sink answers, the loop of [retryBatch] only waits and
    sends its batch, and with one unit of fuel per remaining attempt it
    comes to an end. *)
Lemma retryBatch_loop_shape batch :
  ∀ (fuel a : nat) (w : World),
    ∃ (m : nat) (out : Outcome ()),
      retryBatch_loop config sinkSend fuel batch (Z.of_nat a) w
      = (out, after batch a m w)
      ∧ (m ≤ fuel)%nat
      ∧ (maxRetries < Z.of_nat fuel + Z.of_nat a → out ≠ Running).
Proof.
  induction fuel as [|fuel IH]; intros a w.
  - exists 0%nat. rewrite after_attempts_zero. simpl.
    destruct (Z.leb_spec (Z.of_nat a) maxRetries); eexists;
      (split; [reflexivity|]); (split; [lia|]); intros; [lia|done].
  - destruct (Z.le_gt_cases (Z.of_nat a) maxRetries) as [Hle|Hgt].
    + rewrite retryBatch_loop_step by done.
      destruct (sinkSend (sends w) batch) as [response|error].
      * exists 1%nat. eexists. split; [reflexivity|]. split; [lia|done].
      * destruct (Z.eqb_spec (Z.of_nat a) maxRetries).
        -- exists 1%nat. eexists. split; [reflexivity|]. split; [lia|done].
        -- destruct (IH (S a) (after batch a 1 w)) as (m & out & Hrun & Hm & Hend).
           exists (S m), out. rewrite Hrun, after_attempts_succ.
           split; [done|]. split; [lia|]. intros ?. apply Hend. lia.
    + exists 0%nat. rewrite after_attempts_zero, retryBatch_loop_done by done.
      eexists. split; [reflexivity|]. split; [lia|done].
Qed.

(** One iteration of the loop of [processBatches]. *)
Lemma processBatches_loop_cons n batch rest i w :
  processBatches_loop config sinkSend n (batch :: rest) i w =
    match sinkSend (sends w) batch with
    | Resolved _ =>
        processBatches_loop config sinkSend n rest (i + 1)
          (if i <? n - 1 then log_event (EvDelay 1000) (sent batch w)
           else sent batch w)
    | Rejected _ =>
        match retryBatch config sinkSend batch (i + 1) (sent batch w) with
        | (Return _, w') => processBatches_loop config sinkSend n rest (i + 1) w'
        | (Throw e, w') => (Throw e, w')
        | (Running, w') => (Running, w')
        end
    end.
Proof.
  simpl.
  unfold try_catch, uploadBatch, qBusinessClient_send, delay, sent,
    mbind, M_bind.
  simpl.
  destruct (sinkSend (sends w) batch) as [response|error]; simpl.
  - by destruct (i <? n - 1).
  - by destruct (retryBatch _ _ _ _ _) as [[[]| |] ?].
Qed.

(** The batches are processed one after the other. *)
Lemma processBatches_loop_app n pre rest :
  ∀ i w,
    processBatches_loop config sinkSend n (pre ++ rest) i w =
      match processBatches_loop config sinkSend n pre i w with
      | (Return _, w1) =>
          processBatches_loop config sinkSend n rest
            (i + Z.of_nat (length pre)) w1
      | other => other
      end.
Proof.
  induction pre as [|batch pre IH]; intros i w.
  - simpl. unfold mret, M_ret. by rewrite Z.add_0_r.
  - rewrite <- app_comm_cons, !processBatches_loop_cons.
    replace (i + Z.of_nat (length (batch :: pre)))
      with (i + 1 + Z.of_nat (length pre)) by (simpl; lia).
    destruct (sinkSend (sends w) batch) as [response|error]; [apply IH|].
    destruct (retryBatch _ _ _ _ _) as [[[]| |] ?]; [apply IH|done|done].
Qed.


Variable JSON_stringify : RawDocument → string.
Variable md5_hex : string → string.
Variable decimal : Z → string.
Variable toISOString : Z → string.
Variable Buffer_from_object : JsVal → JsResult (list Byte.byte).
Variable clock : nat → Z.
Variable httpGet : Z → Z → JsResult ResponseData.

Local Abbreviation fetchDocs :=
  (fetchDocuments config JSON_stringify md5_hex decimal toISOString
     Buffer_from_object clock httpGet).
Local Abbreviation run_sync :=
  (sync config JSON_stringify md5_hex decimal toISOString
     Buffer_from_object clock httpGet sinkSend).

(** An exception of [processBatches] leaves [sync] unchanged. *)
Lemma sync_rethrows fuel w0 documents w e w2 :
  fetchDocs fuel w0 = (Return documents, w) →
  documents ≠ [] →
  processBatches config sinkSend fuel documents w = (Throw e, w2) →
  run_sync fuel w0 = (Throw e, w2).
Proof.
  intros Hfetch Hne Hproc. unfold sync, try_catch, mbind, M_bind.
  rewrite Hfetch. destruct documents as [|d documents]; [done|].
  simpl. by rewrite Hproc.
Qed.

(** X20. With [maxRetries >= 1], a batch that the sink rejects at every
    call ends the run. [retryBatch] makes exactly [maxRetries] calls and
    then throws the error of the last one. When the batches before the
    failing one have gone through, [processBatches] throws that error, and
    so does [sync]: the failing batch was sent once and then [maxRetries]
    times again, nothing was sent after it, so that no later batch is
    attempted, and what was sent before stays sent. *)
Theorem upload_failure_aborts_run :
  1 ≤ maxRetries →
  (∀ batch batchNumber w,
     (∀ j, ∃ e, sinkSend (sends w + j) batch = Rejected e) →
     ∃ e w',
       retryBatch config sinkSend batch batchNumber w = (Throw e, w')
       ∧ sinkSend (sends w + (Z.to_nat maxRetries - 1)) batch = Rejected e
       ∧ trace w'
         = trace w ++ flat_map (attempt_events baseDelay batch)
                        (seq 1 (Z.to_nat maxRetries))
       ∧ uploads (trace w')
         = uploads (trace w) ++ replicate (Z.to_nat maxRetries) batch)
  ∧ (∀ fuel documents pre batch rest w w1,
       createBatches fuel documents (dataSource_batchSize config)
       = Some (pre ++ batch :: rest) →
       processBatches_loop config sinkSend
         (Z.of_nat (length (pre ++ batch :: rest))) pre 0 w
       = (Return (), w1) →
       (∀ j, ∃ e, sinkSend (sends w1 + j) batch = Rejected e) →
       ∃ e w2,
         processBatches config sinkSend fuel documents w = (Throw e, w2)
         ∧ (∀ w0, fetchDocs fuel w0 = (Return documents, w) →
                  run_sync fuel w0 = (Throw e, w2))
         ∧ sinkSend (sends w1 + Z.to_nat maxRetries) batch = Rejected e
         ∧ trace w2
           = trace w1 ++ EvSend batch
               :: flat_map (attempt_events baseDelay batch)
                    (seq 1 (Z.to_nat maxRetries))
         ∧ uploads (trace w2)
           = uploads (trace w1) ++ replicate (S (Z.to_nat maxRetries)) batch
         ∧ sends w2 = (sends w1 + S (Z.to_nat maxRetries))%nat).
Proof.
  intros Hmax. split.
  - intros batch batchNumber w Hfail.
    destruct (retryBatch_exhaustion_run batch batchNumber w Hmax Hfail)
      as (e & He & Hrun).
    exists e. eexists. split; [apply Hrun|].
    cbn [after_attempts trace]. split_and!; [done|done|].
    by rewrite uploads_app, uploads_attempts.
  - intros fuel documents pre batch rest w w1 Hcreate Hpre Hfail.
    assert (Hne : documents ≠ []).
    { intros ->. unfold createBatches in Hcreate.
      destruct fuel; simpl in Hcreate; injection Hcreate as Hnil;
        by destruct pre. }
    assert (Hproc : ∃ e w2,
      processBatches config sinkSend fuel documents w = (Throw e, w2)
      ∧ sinkSend (sends w1 + Z.to_nat maxRetries) batch = Rejected e
      ∧ w2 = after batch 1 (Z.to_nat maxRetries) (sent batch w1)).
    { unfold processBatches. rewrite Hcreate.
      rewrite processBatches_loop_app, Hpre, processBatches_loop_cons.
      destruct (Hfail 0%nat) as [e0 He0]. rewrite Nat.add_0_r in He0.
      rewrite He0.
      destruct (retryBatch_exhaustion_run batch
                  (0 + Z.of_nat (length pre) + 1) (sent batch w1) Hmax)
        as (e & He & Hrun).
      { intros j. destruct (Hfail (S j)) as [e' He']. exists e'.
        rewrite <- He'. f_equal. simpl. lia. }
      rewrite Hrun. exists e. eexists. split; [done|]. split; [|done].
      rewrite <- He. f_equal. simpl. lia. }
    destruct Hproc as (e & w2 & Hproc & He & ->).
    exists e. eexists. split; [apply Hproc|].
    split; [intros w0 Hfetch; by apply (sync_rethrows fuel w0 documents w)|].
    split; [done|].
    cbn [after_attempts sent trace sends].
    split_and!.
    + by rewrite <- app_assoc.
    + rewrite !uploads_app, uploads_attempts, <- app_assoc. done.
    + lia.
Qed.

(** C6. Whatever the sink answers, [retryBatch] comes to an end, and all
    that it does is to wait and to send the very batch it was given; the
    clock is not read, so no document is transformed again and no id is
    generated. In an iteration of [processBatches] the first call and
    all the retries carry the same batch. *)
Theorem retries_resend_same_batch batch w :
  (∀ batchNumber,
     ∃ (m : nat) (out : Outcome ()) (w' : World),
       retryBatch config sinkSend batch batchNumber w = (out, w')
       ∧ out ≠ Running
       ∧ trace w'
         = trace w ++ flat_map (attempt_events baseDelay batch) (seq 1 m)
       ∧ uploads (trace w') = uploads (trace w) ++ replicate m batch
       ∧ clockReads w' = clockReads w)
  ∧ (∀ n i,
       ∃ (m : nat) (out : Outcome ()) (w' : World),
         processBatches_loop config sinkSend n [batch] i w = (out, w')
         ∧ out ≠ Running
         ∧ uploads (trace w') = uploads (trace w) ++ replicate (S m) batch
         ∧ clockReads w' = clockReads w).
Proof.
  assert (Hretry : ∀ batchNumber w0,
    ∃ (m : nat) (out : Outcome ()),
      retryBatch config sinkSend batch batchNumber w0
      = (out, after batch 1 m w0) ∧ out ≠ Running).
  { intros batchNumber w0. unfold retryBatch.
    destruct (retryBatch_loop_shape batch (Z.to_nat maxRetries) 1 w0)
      as (m & out & Hrun & _ & Hend).
    exists m, out. split; [apply Hrun|]. apply Hend. lia. }
  split.
  - intros batchNumber.
    destruct (Hretry batchNumber w) as (m & out & Hrun & Hend).
    exists m, out. eexists. split; [apply Hrun|].
    cbn [after_attempts trace clockReads]. split_and!; [done|done| |done].
    by rewrite uploads_app, uploads_attempts.
  - intros n i. rewrite processBatches_loop_cons.
    destruct (sinkSend (sends w) batch) as [response|error].
    + exists 0%nat. eexists _, _. split; [reflexivity|].
      split; [done|]. destruct (i <? n - 1); simpl;
        rewrite ?uploads_app; simpl; by rewrite ?app_nil_r.
    + destruct (Hretry (i + 1) (sent batch w)) as (m & out & Hrun & Hend).
      rewrite Hrun. exists m.
      destruct out as [[]|e|]; [| |done]; eexists _, _;
        (split; [reflexivity|]); (split; [done|]);
        cbn [after_attempts sent trace clockReads];
        rewrite !uploads_app, uploads_attempts, <- app_assoc; done.
Qed.

End RetryFacts.



Lemma upload_failure_aborts_run_witness :
  ∃ w2,
    processBatches unitBatchConfig (dying_sink 1) 3 three_docs initialWorld
    = (Throw throttled, w2)
    ∧ uploads (trace w2)
      = [[sampleDoc "a"]; [sampleDoc "b"]; [sampleDoc "b"]; [sampleDoc "b"]]
    ∧ sends w2 = 4%nat.
Proof.
  assert (Hmax : 1 ≤ plugin_maxRetries unitBatchConfig) by (simpl; lia).
  destruct (upload_failure_aborts_run unitBatchConfig (dying_sink 1)
              sample_stringify sample_md5 sample_decimal sample_iso
              sample_buffer sample_clock two_pages Hmax)
    as (_ & Hrun).
  destruct (Hrun 3%nat three_docs [[sampleDoc "a"]] [sampleDoc "b"]
              [[sampleDoc "c"]] initialWorld
              (MkWorld 0 1 [EvSend [sampleDoc "a"]; EvDelay 1000]))
    as (e & w2 & Hproc & _ & He & _ & Huploads & Hsends).
  - reflexivity.
  - reflexivity.
  - intros j. exists throttled. reflexivity.
  - exists w2. simpl in He. injection He as <-.
    split; [apply Hproc|]. split; [apply Huploads|apply Hsends].
Defined.

(** C3: the code at the failing input. With [maxRetries = 0] and a sink
    that rejects every call, the loop of [retryBatch] is not entered: it
    makes no call and returns normally, where the branch for the last
    attempt would have thrown. [processBatches] thus drops the error, goes
    on to the next batch and returns normally, and so does [sync]: both
    batches were attempted, none was accepted, and no error comes out of
    the run. A negative [maxRetries], which the constructor takes from the
    environment, gives the same run. *)
Theorem retryBatch_without_retries_swallows :
  retryBatch noRetryConfig failing_sink [sampleDoc "a"] 1
    (sent [sampleDoc "a"] initialWorld)
  = (Return (), sent [sampleDoc "a"] initialWorld)
  ∧ processBatches noRetryConfig failing_sink 2
      [sampleDoc "a"; sampleDoc "b"] initialWorld
    = (Return (), MkWorld 0 2 [EvSend [sampleDoc "a"]; EvSend [sampleDoc "b"]])
  ∧ processBatches (MkConfig "test-plugin" 1 (-1) 100) failing_sink 2
      [sampleDoc "a"; sampleDoc "b"] initialWorld
    = (Return (), MkWorld 0 2 [EvSend [sampleDoc "a"]; EvSend [sampleDoc "b"]])
  ∧ ∃ w',
      sync noRetryConfig sample_stringify sample_md5 sample_decimal
        sample_iso sample_buffer sample_clock two_pages failing_sink 2
        initialWorld
      = (Return (), w')
      ∧ sends w' = 2%nat
      ∧ length (uploads (trace w')) = 2%nat.
Proof.
  split; [by vm_compute|]. split; [by vm_compute|]. split; [by vm_compute|].
  eexists. split; [by vm_compute|]. split; by vm_compute.
Qed.

(** C9: the code at the failing input. Two batches, the first call of the
    sink is rejected and the later ones are accepted: the first batch goes
    through on its retry, and the second batch is sent right after it,
    without the wait of 1000 ms. *)
Theorem processBatches_no_throttle_after_retry :
  processBatches (MkConfig "test-plugin" 1 2 100) (flaky_sink 1) 2
    [sampleDoc "a"; sampleDoc "b"] initialWorld
  = (Return (),
     MkWorld 0 3
       [EvSend [sampleDoc "a"]; EvDelay 100; EvSend [sampleDoc "a"];
        EvSend [sampleDoc "b"]]).
Proof. by vm_compute. Qed.

(** When both batches go through at once the wait is there. *)
Example processBatches_throttle_between_batches :
  processBatches (MkConfig "test-plugin" 1 2 100) (flaky_sink 0) 2
    [sampleDoc "a"; sampleDoc "b"] initialWorld
  = (Return (),
     MkWorld 0 2
       [EvSend [sampleDoc "a"]; EvDelay 1000; EvSend [sampleDoc "b"]]).
Proof. by vm_compute. Qed.

(** ** The pagination loop and the whole run *)

Section FetchFacts.
Variable config : Config.
Variable JSON_stringify : RawDocument → string.
Variable md5_hex : string → string.
Variable decimal : Z → string.
Variable toISOString : Z → string.
Variable Buffer_from_object : JsVal → JsResult (list Byte.byte).
Variable clock : nat → Z.
Variable httpGet : Z → Z → JsResult ResponseData.
Variable sinkSend : nat → list SinkDocument → JsResult SinkResponse.

Local Abbreviation limit := (pageLimit config).
Local Abbreviation loop := (fetchAll_loop config httpGet).

Lemma fetched_zero a w : fetched limit a 0 w = w.
Proof. destruct w. unfold fetched. simpl. by rewrite app_nil_r. Qed.

Lemma fetched_succ a m w :
  fetched limit (S a) m (fetched limit a 1 w) = fetched limit a (S m) w.
Proof. unfold fetched. simpl. by rewrite <- app_assoc. Qed.

Lemma fetched_last a m w :
  fetched limit (a + m) 1 (fetched limit a m w) = fetched limit a (S m) w.
Proof.
  unfold fetched. cbn [clockReads sends trace].
  by rewrite (seq_S m a), flat_map_app, <- app_assoc.
Qed.

Lemma truthy_or_false (v : JsVal) : truthy (v ||| VBool false) = truthy v.
Proof. unfold js_or. by destruct (truthy v) eqn:Hv. Qed.

(** The loop stops at a page without documents or with a falsy flag. *)
Lemma page_continues_false (data : ResponseData) :
  page_continues data = false
  ↔ page_docs data = [] ∨ truthy (pd_hasMore (pageDataOf data)) = false.
Proof.
  unfold page_continues. destruct (page_docs data); [naive_solver|].
  split; [by right|]. by intros [?|?].
Qed.

(** [fetchPage] hands the failure of the request on as it is. *)
Lemma fetchPage_run (p : nat) w :
  fetchPage config httpGet (Z.of_nat p) w =
    match httpGet (Z.of_nat p) limit with
    | Resolved data =>
        (Return (pageDataOf data), log_event (EvGet (Z.of_nat p) limit) w)
    | Rejected e => (Throw e, log_event (EvGet (Z.of_nat p) limit) w)
    end.
Proof.
  unfold fetchPage, try_catch, client_get, mbind, M_bind.
  by destruct (httpGet (Z.of_nat p) limit).
Qed.

(** One iteration of the loop of [fetchAll]. *)
Lemma fetchAll_loop_step fuel documents (p : nat) hasMore w :
  truthy hasMore = true →
  loop (S fuel) documents (Z.of_nat p) hasMore w =
    match httpGet (Z.of_nat p) limit with
    | Resolved data =>
        if page_continues data
        then loop fuel (documents ++ page_docs data) (Z.of_nat (S p))
               (pd_hasMore (pageDataOf data) ||| VBool false)
               (fetched limit p 1 w)
        else (Return (documents ++ page_docs data), fetched limit p 1 w)
    | Rejected e => (Throw e, log_event (EvGet (Z.of_nat p) limit) w)
    end.
Proof.
  intros Hmore. simpl. rewrite Hmore.
  unfold mbind, M_bind at 1. rewrite fetchPage_run.
  destruct (httpGet (Z.of_nat p) limit) as [data|e]; [|done].
  unfold page_continues, page_docs.
  assert (Hw : ∀ w0, log_event (EvDelay 100) (log_event (EvGet (Z.of_nat p) limit) w0)
                     = fetched limit p 1 w0).
  { intros w0. unfold log_event, fetched. simpl. by rewrite <- app_assoc. }
  assert (Hstop : ∀ docs w0, loop fuel docs (Z.of_nat p) (VBool false) w0
                             = (Return docs, w0)).
  { intros docs w0. by destruct fuel. }
  destruct (pd_documents (pageDataOf data)) as [[|doc docs]|];
    unfold mbind, M_bind, delay; rewrite Hw.
  - by rewrite Hstop, app_nil_r.
  - rewrite Nat2Z.inj_succ, <- Z.add_1_r.
    destruct (truthy (pd_hasMore (pageDataOf data))) eqn:Hflag; [done|].
    destruct fuel; simpl; by rewrite truthy_or_false, Hflag.
  - by rewrite Hstop, app_nil_r.
Qed.

(** [m] pages that continue are followed by the next iteration. *)
Lemma fetchAll_loop_pages (pages : nat → ResponseData) (m : nat) :
  ∀ (fuel a : nat) documents hasMore w,
    truthy hasMore = true →
    (∀ p, (a ≤ p < a + m)%nat →
          httpGet (Z.of_nat p) limit = Resolved (pages p)
          ∧ page_continues (pages p) = true) →
    ∃ hasMore',
      truthy hasMore' = true
      ∧ loop (m + fuel) documents (Z.of_nat a) hasMore w
        = loop fuel (documents ++ flat_map (λ p, page_docs (pages p)) (seq a m))
            (Z.of_nat (a + m)) hasMore' (fetched limit a m w).
Proof.
  induction m as [|m IH]; intros fuel a documents hasMore w Hmore Hpages.
  - exists hasMore. split; [done|].
    by rewrite Nat.add_0_r, fetched_zero, app_nil_r.
  - destruct (Hpages a) as [Hget Hcont]; [lia|].
    simpl Nat.add. rewrite fetchAll_loop_step, Hget, Hcont by done.
    destruct (IH fuel (S a) (documents ++ page_docs (pages a))
                (pd_hasMore (pageDataOf (pages a)) ||| VBool false)
                (fetched limit a 1 w))
      as (hasMore' & Hmore' & Hrun).
    + rewrite truthy_or_false. unfold page_continues in Hcont.
      by destruct (page_docs (pages a)).
    + intros p Hp. apply Hpages. lia.
    + exists hasMore'. split; [done|].
      rewrite Hrun, fetched_succ, <- app_assoc. simpl.
      do 2 f_equal. lia.
Qed.

Lemma requests_app (t1 t2 : list Event) :
  requests (t1 ++ t2) = requests t1 ++ requests t2.
Proof. apply omap_app. Qed.

Lemma requests_pages (m a : nat) :
  requests (flat_map (page_events limit) (seq a m)) = Z.of_nat <$> seq a m.
Proof.
  revert a. induction m as [|m IH]; intros a; [done|].
  simpl. unfold requests in *. simpl. by rewrite IH.
Qed.

Lemma uploads_pages (m a : nat) :
  uploads (flat_map (page_events limit) (seq a m)) = [].
Proof.
  revert a. induction m as [|m IH]; intros a; [done|].
  simpl. unfold uploads in *. simpl. by rewrite IH.
Qed.

(** [n] pages that continue, then a page that does not. *)
Lemma fetchAll_run_stop (pages : nat → ResponseData) (n fuel : nat) data w :
  (n < fuel)%nat →
  (∀ p, (1 ≤ p ≤ n)%nat →
        httpGet (Z.of_nat p) limit = Resolved (pages p)
        ∧ page_continues (pages p) = true) →
  httpGet (Z.of_nat (S n)) limit = Resolved data →
  page_continues data = false →
  fetchAll config httpGet fuel w
  = (Return (flat_map (λ p, page_docs (pages p)) (seq 1 n) ++ page_docs data),
     fetched limit 1 (S n) w).
Proof.
  intros Hfuel Hpages Hget Hstop. unfold fetchAll, try_catch.
  replace fuel with (n + S (fuel - S n))%nat by lia.
  destruct (fetchAll_loop_pages pages n (S (fuel - S n)) 1 [] (VBool true) w)
    as (hasMore' & Hmore' & Hrun); [done| |].
  { intros p Hp. apply Hpages. lia. }
  change 1 with (Z.of_nat 1). rewrite Hrun.
  rewrite fetchAll_loop_step by done.
  change (1 + n)%nat with (S n). rewrite Hget, Hstop.
  change (S n) with (1 + n)%nat. by rewrite fetched_last.
Qed.



Local Abbreviation run_sync :=
  (sync config JSON_stringify md5_hex decimal toISOString
     Buffer_from_object clock httpGet sinkSend).

(** C7. When the first page of the source has no documents, [sync]
    returns normally and the sink is not called. *)
Theorem sync_without_documents (data : ResponseData) (fuel : nat) (w : World) :
  (1 ≤ fuel)%nat →
  httpGet 1 limit = Resolved data →
  page_docs data = [] →
  ∃ w',
    run_sync fuel w = (Return (), w')
    ∧ sends w' = sends w
    ∧ uploads (trace w') = uploads (trace w)
    ∧ requests (trace w') = requests (trace w) ++ [1].
Proof.
  intros Hfuel Hget Hnone.
  assert (Hfetch : fetchAll config httpGet fuel w
                   = (Return [], fetched limit 1 1 w)).
  { rewrite (fetchAll_run_stop (λ _, data) 0 fuel data w); try done.
    - by rewrite Hnone.
    - intros p Hp. lia.
    - unfold page_continues. by rewrite Hnone. }
  eexists. unfold sync, fetchDocuments, try_catch, mbind, M_bind.
  rewrite Hfetch. simpl. split; [reflexivity|].
  cbn [fetched sends trace]. split; [done|].
  rewrite uploads_app, uploads_pages, requests_app, requests_pages.
  by rewrite app_nil_r.
Qed.

End FetchFacts.


Lemma sync_without_documents_witness :
  ∃ w',
    sync testConfig sample_stringify sample_md5 sample_decimal sample_iso
      sample_buffer sample_clock empty_source failing_sink 1 initialWorld
    = (Return (), w')
    ∧ sends w' = 0%nat
    ∧ uploads (trace w') = [].
Proof.
  destruct (sync_without_documents testConfig sample_stringify sample_md5
              sample_decimal sample_iso sample_buffer sample_clock
              empty_source failing_sink
              (DataObject (Some []) None (VBool false) VUndefined
                 (VNum 0) VUndefined) 1 initialWorld)
    as (w' & Hrun & Hsends & Huploads & _);
    [lia | reflexivity | reflexivity |].
  exists w'. split_and!; [apply Hrun | apply Hsends | apply Huploads].
Defined.

(** A failing request of the second page ends the fetch with that error. *)
Example fetchAll_second_page_fails :
  fetchAll testConfig
    (λ page limit, if page =? 1 then two_pages page limit
                   else Rejected (MkError "AxiosError" "ECONNRESET"))
    5 initialWorld
  = (Throw (MkError "AxiosError" "ECONNRESET"),
     MkWorld 0 0 [EvGet 1 10; EvDelay 100; EvGet 2 10]).
Proof. by vm_compute. Qed.

(** U+00E9 takes two bytes. *)
Example utf8_encode_e_acute :
  utf8_encode (String (Ascii.ascii_of_N 233) "") = [Byte.xc3; Byte.xa9].
Proof. reflexivity. Qed.

(** ** The upload phase as a whole *)

Section UploadFacts.
Variable config : Config.
Variable sinkSend : nat → list SinkDocument → JsResult SinkResponse.

Local Abbreviation maxRetries := (plugin_maxRetries config).
Local Abbreviation baseDelay := (plugin_retryDelay config).
Local Abbreviation after := (after_attempts (plugin_retryDelay config)).
Local Abbreviation batchSize := (dataSource_batchSize config).
Local Abbreviation upload_loop := (processBatches_loop config sinkSend).

Lemma uploads_sent batch w :
  uploads (trace (sent batch w)) = uploads (trace w) ++ [batch].
Proof. unfold sent. simpl. by rewrite uploads_app. Qed.

Lemma delays_sent batch w : delays (trace (sent batch w)) = delays (trace w).
Proof. unfold sent. simpl. rewrite delays_app. simpl. by rewrite app_nil_r. Qed.

(** When the sink accepts every call, every batch is sent once, and a wait
    of 1000 ms separates two batches. *)
Lemma processBatches_loop_accepted :
  ∀ (batches : list (list SinkDocument)) (n i : Z) (w : World),
    (∀ j b, ∃ r, sinkSend (sends w + j) b = Resolved r) →
    i + Z.of_nat (length batches) = n →
    ∃ w',
      upload_loop n batches i w = (Return (), w')
      ∧ sends w' = (sends w + length batches)%nat
      ∧ clockReads w' = clockReads w
      ∧ uploads (trace w') = uploads (trace w) ++ batches
      ∧ delays (trace w')
        = delays (trace w) ++ replicate (length batches - 1) 1000.
Proof.
  induction batches as [|batch rest IH]; intros n i w Hok Hn.
  - exists w. simpl. rewrite !app_nil_r. split_and!; (done || lia).
  - rewrite processBatches_loop_cons.
    destruct (Hok 0%nat batch) as [r Hr]. rewrite Nat.add_0_r in Hr. rewrite Hr.
    set (w1 := if i <? n - 1 then log_event (EvDelay 1000) (sent batch w)
               else sent batch w).
    assert (Hs1 : sends w1 = S (sends w)) by (unfold w1; by destruct (i <? n - 1)).
    assert (Hc1 : clockReads w1 = clockReads w)
      by (unfold w1; by destruct (i <? n - 1)).
    assert (Hu1 : uploads (trace w1) = uploads (trace w) ++ [batch]).
    { unfold w1. destruct (i <? n - 1); simpl; rewrite !uploads_app; simpl;
        by rewrite ?app_nil_r. }
    destruct (IH n (i + 1) w1) as (w' & Hrun & Hs & Hc & Hu & Hd).
    { intros j b. rewrite Hs1. destruct (Hok (S j) b) as [r' Hr'].
      exists r'. rewrite <- Hr'. f_equal. lia. }
    { simpl in Hn. lia. }
    exists w'. rewrite Hrun. split; [done|].
    split; [simpl; lia|]. split; [congruence|].
    split; [by rewrite Hu, Hu1, <- app_assoc|].
    rewrite Hd. unfold w1. simpl in Hn.
    destruct (Z.ltb_spec i (n - 1)) as [Hlt|Hge]; simpl.
    + rewrite !delays_app. simpl. rewrite app_nil_r, <- app_assoc.
      destruct rest as [|b2 rest]; [simpl in Hn; lia|].
      simpl. by rewrite Nat.sub_0_r.
    + destruct rest as [|b2 rest]; [|simpl in Hn; lia].
      rewrite delays_app. simpl. by rewrite !app_nil_r.
Qed.


(** The events of the loop when the sink accepts every call. *)
Lemma processBatches_loop_accepted_trace :
  ∀ (batches : list (list SinkDocument)) (n i : Z) (w w' : World),
    (∀ j b, ∃ r, sinkSend (sends w + j) b = Resolved r) →
    i + Z.of_nat (length batches) = n →
    upload_loop n batches i w = (Return (), w') →
    trace w' = trace w ++ accepted_events batches.
Proof.
  induction batches as [|batch rest IH]; intros n i w w' Hok Hn Hrun.
  - simpl in Hrun. injection Hrun as <-. by rewrite app_nil_r.
  - rewrite processBatches_loop_cons in Hrun.
    destruct (Hok 0%nat batch) as [r Hr]. rewrite Nat.add_0_r in Hr.
    rewrite Hr in Hrun.
    apply IH in Hrun.
    + rewrite Hrun. cbn [accepted_events].
      destruct rest as [|batch2 rest]; simpl in Hn.
      * destruct (Z.ltb_spec i (n - 1)); [lia|].
        simpl. by rewrite app_nil_r.
      * destruct (Z.ltb_spec i (n - 1)); [|lia].
        cbn [log_event sent trace]. by rewrite <- !app_assoc.
    + intros j b. destruct (Hok (S j) b) as [r' Hr']. exists r'.
      rewrite <- Hr'. f_equal. destruct (i <? n - 1); simpl; lia.
    + simpl in Hn. lia.
Qed.

(** X1. When the batch size is positive and the sink accepts every call
    (whatever it reports as failed documents), [processBatches] returns
    normally after exactly ceil(len / batchSize) calls: it sends the
    batches of [createBatches] once each, in order, so that the calls put
    together are the documents, and it waits 1000 ms between two batches
    and not after the last one: the events of the run are the call with
    the first batch, a wait, the call with the second batch, a wait, and
    so on up to the call with the last batch, and nothing else. *)
Theorem processBatches_all_accepted (documents : list SinkDocument)
    (fuel : nat) (w : World) :
  0 < batchSize →
  (length documents ≤ fuel)%nat →
  (∀ j b, ∃ r, sinkSend (sends w + j) b = Resolved r) →
  ∃ batches w',
    createBatches fuel documents batchSize = Some batches
    ∧ processBatches config sinkSend fuel documents w = (Return (), w')
    ∧ uploads (trace w') = uploads (trace w) ++ batches
    ∧ concat batches = documents
    ∧ sends w' = (sends w + length batches)%nat
    ∧ Z.of_nat (length batches)
      = ceil_div (Z.of_nat (length documents)) batchSize
    ∧ delays (trace w')
      = delays (trace w) ++ replicate (length batches - 1) 1000
    ∧ trace w' = trace w ++ accepted_events batches.
Proof.
  intros Hsize Hfuel Hok.
  destruct (createBatches_loop_pos documents batchSize Hsize fuel 0 [])
    as (batches & Hcreate & Hcat & Hlen & _); [lia|lia|].
  simpl in Hcreate.
  destruct (processBatches_loop_accepted batches
              (Z.of_nat (length batches)) 0 w Hok)
    as (w' & Hrun & Hs & _ & Hu & Hd); [lia|].
  pose proof (processBatches_loop_accepted_trace batches
                (Z.of_nat (length batches)) 0 w w' Hok ltac:(lia) Hrun)
    as Htrace.
  exists batches, w'. unfold processBatches, createBatches.
  rewrite Hcreate. split_and!; try done.
  rewrite Hlen. f_equal. lia.
Qed.

(** Whatever the sink answers, [retryBatch] ends after at most
    [maxRetries] attempts. *)
Lemma retryBatch_shape batch batchNumber w :
  ∃ (m : nat) (out : Outcome ()),
    retryBatch config sinkSend batch batchNumber w = (out, after batch 1 m w)
    ∧ (m ≤ Z.to_nat maxRetries)%nat
    ∧ out ≠ Running.
Proof.
  unfold retryBatch.
  destruct (retryBatch_loop_shape config sinkSend batch
              (Z.to_nat maxRetries) 1 w) as (m & out & Hrun & Hm & Hend).
  exists m, out. split; [apply Hrun|]. split; [done|]. apply Hend. lia.
Qed.

Lemma uploads_after batch a m w :
  uploads (trace (after batch a m w)) = uploads (trace w) ++ replicate m batch.
Proof.
  unfold after_attempts. simpl. by rewrite uploads_app, uploads_attempts.
Qed.

Lemma uploads_throttled w :
  uploads (trace (log_event (EvDelay 1000) w)) = uploads (trace w).
Proof. unfold log_event. simpl. rewrite uploads_app. simpl. by rewrite app_nil_r. Qed.

(** Whatever the sink answers, the loop of [processBatches] ends, sends
    nothing but batches of its list, and needs at most [1 + maxRetries]
    calls for each. *)
Lemma processBatches_loop_bounded :
  ∀ (batches : list (list SinkDocument)) (n i : Z) (w : World),
    ∃ (out : Outcome ()) (w' : World) (calls : list (list SinkDocument)),
      upload_loop n batches i w = (out, w')
      ∧ out ≠ Running
      ∧ uploads (trace w') = uploads (trace w) ++ calls
      ∧ sends w' = (sends w + length calls)%nat
      ∧ clockReads w' = clockReads w
      ∧ (length calls ≤ length batches * S (Z.to_nat maxRetries))%nat
      ∧ Forall (λ b, b ∈ batches) calls.
Proof.
  induction batches as [|batch rest IH]; intros n i w.
  - exists (Return ()), w, []. simpl. rewrite app_nil_r.
    split_and!; (done || lia || constructor).
  - rewrite processBatches_loop_cons.
    destruct (sinkSend (sends w) batch) as [r|e].
    + set (w1 := if i <? n - 1 then log_event (EvDelay 1000) (sent batch w)
                 else sent batch w).
      assert (Hw1 : sends w1 = S (sends w) ∧ clockReads w1 = clockReads w
                    ∧ uploads (trace w1) = uploads (trace w) ++ [batch]).
      { unfold w1. destruct (i <? n - 1);
          rewrite ?uploads_throttled, uploads_sent; done. }
      destruct Hw1 as (Hs1 & Hc1 & Hu1).
      destruct (IH n (i + 1) w1) as (out & w' & calls & Hrun & Hend & Hu & Hs & Hc & Hlen & Hin).
      exists out, w', (batch :: calls). rewrite Hrun.
      split_and!; [done | done | | | congruence | | ].
      * by rewrite Hu, Hu1, <- app_assoc.
      * simpl. lia.
      * simpl. lia.
      * constructor; [set_solver|].
        eapply Forall_impl; [apply Hin|]. set_solver.
    + destruct (retryBatch_shape batch (i + 1) (sent batch w))
        as (m & out & Hretry & Hm & Hend).
      rewrite Hretry.
      assert (Hu2 : uploads (trace (after batch 1 m (sent batch w)))
                    = uploads (trace w) ++ batch :: replicate m batch).
      { by rewrite uploads_after, uploads_sent, <- app_assoc. }
      assert (Hin2 : Forall (λ b, b ∈ batch :: rest) (batch :: replicate m batch)).
      { constructor; [set_solver|]. apply Forall_replicate. set_solver. }
      destruct out as [[]|e'|]; [| |done].
      * destruct (IH n (i + 1) (after batch 1 m (sent batch w)))
          as (out & w' & calls & Hrun & Hend' & Hu & Hs & Hc & Hlen & Hin).
        exists out, w', (batch :: replicate m batch ++ calls). rewrite Hrun.
        split_and!; [done | done | | | | | ].
        -- rewrite Hu, Hu2, <- app_assoc. done.
        -- rewrite Hs. simpl. rewrite length_app, length_replicate. lia.
        -- rewrite Hc. done.
        -- simpl. rewrite length_app, length_replicate. lia.
        -- rewrite app_comm_cons. apply Forall_app. split; [done|].
           eapply Forall_impl; [apply Hin|]. set_solver.
      * exists (Throw e'), (after batch 1 m (sent batch w)),
          (batch :: replicate m batch).
        split_and!; [done | done | done | | done | | done].
        -- simpl. rewrite length_replicate. lia.
        -- simpl. rewrite length_replicate. lia.
Qed.

(** X2. With a positive batch size and fuel for one iteration per
    document, [processBatches] comes to an end whatever the sink answers;
    it calls the sink at most [1 + maxRetries] times for each batch, every
    call carries one of the batches, and the clock is never read (no
    document is transformed again). *)
Theorem processBatches_terminates_bounded (documents : list SinkDocument)
    (fuel : nat) (w : World) :
  0 < batchSize →
  (length documents ≤ fuel)%nat →
  ∃ batches (out : Outcome ()) (w' : World) (calls : list (list SinkDocument)),
    createBatches fuel documents batchSize = Some batches
    ∧ processBatches config sinkSend fuel documents w = (out, w')
    ∧ out ≠ Running
    ∧ uploads (trace w') = uploads (trace w) ++ calls
    ∧ sends w' = (sends w + length calls)%nat
    ∧ clockReads w' = clockReads w
    ∧ (length calls ≤ length batches * S (Z.to_nat maxRetries))%nat
    ∧ Forall (λ b, b ∈ batches) calls.
Proof.
  intros Hsize Hfuel.
  destruct (createBatches_loop_pos documents batchSize Hsize fuel 0 [])
    as (batches & Hcreate & _); [lia|lia|].
  simpl in Hcreate.
  destruct (processBatches_loop_bounded batches (Z.of_nat (length batches)) 0 w)
    as (out & w' & calls & Hrun & Hrest).
  exists batches, out, w', calls. unfold processBatches, createBatches.
  by rewrite Hcreate.
Qed.

(** A normal return of the loop of [retryBatch] that started at an attempt
    within the budget comes from an accepted call. *)
Lemma retryBatch_loop_return_accepted batch :
  ∀ (fuel a : nat) (w w' : World),
    Z.of_nat a ≤ maxRetries →
    retryBatch_loop config sinkSend fuel batch (Z.of_nat a) w = (Return (), w') →
    ∃ (m : nat) r,
      w' = after batch a (S m) w
      ∧ sinkSend (sends w + m) batch = Resolved r.
Proof.
  induction fuel as [|fuel IH]; intros a w w' Ha Hrun.
  - simpl in Hrun. destruct (Z.leb_spec (Z.of_nat a) maxRetries); [done|lia].
  - rewrite retryBatch_loop_step in Hrun by done.
    destruct (sinkSend (sends w) batch) as [r|e] eqn:Hsend.
    + exists 0%nat, r. rewrite Nat.add_0_r. split; [congruence|done].
    + destruct (Z.eqb_spec (Z.of_nat a) maxRetries); [done|].
      apply IH in Hrun as (m & r & -> & Hr); [|lia].
      exists (S m), r. rewrite after_attempts_succ. split; [done|].
      rewrite <- Hr. f_equal. simpl. lia.
Qed.

Lemma blocks_cons batch rest m ms :
  blocks (batch :: rest) (m :: ms) = batch :: replicate m batch ++ blocks rest ms.
Proof. done. Qed.

(** With [maxRetries >= 1], a normal return of the loop of
    [processBatches] means that every batch was sent until the sink
    accepted it, and not once more. *)
Lemma processBatches_loop_return_accepted :
  1 ≤ maxRetries →
  ∀ (batches : list (list SinkDocument)) (n i : Z) (w w' : World),
    upload_loop n batches i w = (Return (), w') →
    ∃ ms : list nat,
      length ms = length batches
      ∧ uploads (trace w') = uploads (trace w) ++ blocks batches ms
      ∧ sends w' = (sends w + length (blocks batches ms))%nat
      ∧ ∀ (k : nat) b m,
          batches !! k = Some b → ms !! k = Some m →
          ∃ r, sinkSend (sends w + length (blocks (take k batches) (take k ms)) + m) b
               = Resolved r.
Proof.
  intros Hmax. induction batches as [|batch rest IH]; intros n i w w' Hrun.
  - exists []. simpl in Hrun. injection Hrun as <-.
    unfold blocks. simpl. rewrite app_nil_r.
    split_and!; [done | done | lia | ]. intros k b m Hk. by rewrite lookup_nil in Hk.
  - rewrite processBatches_loop_cons in Hrun.
    destruct (sinkSend (sends w) batch) as [r|e] eqn:Hsend.
    + set (w1 := if i <? n - 1 then log_event (EvDelay 1000) (sent batch w)
                 else sent batch w) in Hrun.
      assert (Hw1 : sends w1 = S (sends w)
                    ∧ uploads (trace w1) = uploads (trace w) ++ [batch]).
      { unfold w1. destruct (i <? n - 1);
          rewrite ?uploads_throttled, uploads_sent; done. }
      destruct Hw1 as (Hs1 & Hu1).
      apply IH in Hrun as (ms & Hlen & Hu & Hs & Hacc).
      exists (0%nat :: ms). rewrite blocks_cons. simpl.
      split_and!; [lia | by rewrite Hu, Hu1, <- app_assoc | lia | ].
      intros [|k] b m Hb Hm; simpl in Hb, Hm.
      * injection Hb as <-. injection Hm as <-. exists r.
        rewrite <- Hsend. f_equal. unfold blocks. simpl. lia.
      * destruct (Hacc k b m Hb Hm) as [r' Hr']. exists r'.
        rewrite <- Hr'. f_equal. simpl take. rewrite blocks_cons. simpl. lia.
    + destruct (retryBatch config sinkSend batch (i + 1) (sent batch w))
        as [[[]|e'|] w2] eqn:Hretry; [|done|done].
      unfold retryBatch in Hretry.
      apply (retryBatch_loop_return_accepted batch _ 1) in Hretry
        as (m0 & r & -> & Hr); [|lia].
      apply IH in Hrun as (ms & Hlen & Hu & Hs & Hacc).
      exists (S m0 :: ms). rewrite blocks_cons.
      rewrite uploads_after, uploads_sent in Hu.
      cbn [after_attempts sent sends] in Hs, Hacc, Hr.
      split_and!.
      * simpl. lia.
      * rewrite Hu, <- !app_assoc. done.
      * rewrite Hs. simpl. rewrite !length_app, !length_replicate. simpl. lia.
      * intros [|k] b m Hb Hm; simpl in Hb, Hm.
        -- injection Hb as <-. injection Hm as <-. exists r.
           rewrite <- Hr. f_equal. unfold blocks. simpl. lia.
        -- destruct (Hacc k b m Hb Hm) as [r' Hr']. exists r'.
           rewrite <- Hr'. f_equal. simpl take. rewrite blocks_cons. simpl.
           rewrite !length_app, !length_replicate. simpl. lia.
Qed.

(** X3. With [maxRetries >= 1], whenever [processBatches] returns
    normally, the calls it made are, batch after batch in the order of
    [createBatches], one or more calls with the same batch of which the
    last one was accepted by the sink: every batch was accepted, and none
    was sent again after that. *)
Theorem processBatches_return_means_accepted (documents : list SinkDocument)
    (fuel : nat) (w w' : World) :
  1 ≤ maxRetries →
  processBatches config sinkSend fuel documents w = (Return (), w') →
  ∃ batches (ms : list nat),
    createBatches fuel documents batchSize = Some batches
    ∧ length ms = length batches
    ∧ uploads (trace w') = uploads (trace w) ++ blocks batches ms
    ∧ sends w' = (sends w + length (blocks batches ms))%nat
    ∧ ∀ (k : nat) b m,
        batches !! k = Some b → ms !! k = Some m →
        ∃ r, sinkSend (sends w + length (blocks (take k batches) (take k ms)) + m) b
             = Resolved r.
Proof.
  intros Hmax Hrun. unfold processBatches in Hrun.
  destruct (createBatches fuel documents batchSize) as [batches|]; [|done].
  exists batches.
  destruct (processBatches_loop_return_accepted Hmax batches _ _ _ _ Hrun)
    as (ms & Hrest).
  by exists ms.
Qed.

(** Without a retry budget every failure is dropped. *)
Lemma processBatches_loop_no_budget :
  maxRetries ≤ 0 →
  ∀ (batches : list (list SinkDocument)) (n i : Z) (w : World),
    ∃ w',
      upload_loop n batches i w = (Return (), w')
      ∧ uploads (trace w') = uploads (trace w) ++ batches
      ∧ sends w' = (sends w + length batches)%nat.
Proof.
  intros Hmax. induction batches as [|batch rest IH]; intros n i w.
  - exists w. simpl. rewrite app_nil_r. split_and!; (done || lia).
  - rewrite processBatches_loop_cons.
    assert (Hnext : ∀ w1, sends w1 = S (sends w) →
                    uploads (trace w1) = uploads (trace w) ++ [batch] →
                    ∃ w', upload_loop n rest (i + 1) w1 = (Return (), w')
                          ∧ uploads (trace w') = uploads (trace w) ++ batch :: rest
                          ∧ sends w' = (sends w + length (batch :: rest))%nat).
    { intros w1 Hs1 Hu1. destruct (IH n (i + 1) w1) as (w' & Hrun & Hu & Hs).
      exists w'. split; [done|]. rewrite Hu, Hu1, <- app_assoc.
      split; [done|]. simpl. lia. }
    destruct (sinkSend (sends w) batch) as [r|e].
    + apply Hnext; destruct (i <? n - 1);
        rewrite ?uploads_throttled, ?uploads_sent; done.
    + unfold retryBatch. rewrite retryBatch_loop_done by lia.
      apply Hnext; [done | apply uploads_sent].
Qed.

(** X4. With [maxRetries <= 0] (and a positive batch size),
    [processBatches] returns normally whatever the sink answers: every
    batch is sent exactly once, a rejected call is not repeated and its
    error is dropped. *)
Theorem processBatches_no_budget_swallows (documents : list SinkDocument)
    (fuel : nat) (w : World) :
  maxRetries ≤ 0 →
  0 < batchSize →
  (length documents ≤ fuel)%nat →
  ∃ batches w',
    createBatches fuel documents batchSize = Some batches
    ∧ processBatches config sinkSend fuel documents w = (Return (), w')
    ∧ uploads (trace w') = uploads (trace w) ++ batches
    ∧ sends w' = (sends w + length batches)%nat.
Proof.
  intros Hmax Hsize Hfuel.
  destruct (createBatches_loop_pos documents batchSize Hsize fuel 0 [])
    as (batches & Hcreate & _); [lia|lia|].
  simpl in Hcreate.
  destruct (processBatches_loop_no_budget Hmax batches
              (Z.of_nat (length batches)) 0 w) as (w' & Hrun & Hrest).
  exists batches, w'. unfold processBatches, createBatches.
  by rewrite Hcreate.
Qed.




End UploadFacts.

Lemma processBatches_all_accepted_witness :
  ∃ batches w',
    processBatches unitBatchConfig (flaky_sink 0) 3 three_docs initialWorld
    = (Return (), w')
    ∧ uploads (trace w') = batches
    ∧ concat batches = three_docs
    ∧ sends w' = 3%nat
    ∧ delays (trace w') = [1000; 1000]
    ∧ trace w'
      = [EvSend [sampleDoc "a"]; EvDelay 1000; EvSend [sampleDoc "b"];
         EvDelay 1000; EvSend [sampleDoc "c"]].
Proof.
  destruct (processBatches_all_accepted unitBatchConfig (flaky_sink 0)
              three_docs 3 initialWorld)
    as (batches & w' & Hcreate & Hrun & Hu & Hcat & Hs & Hlen & Hd & Htrace).
  - simpl. lia.
  - simpl. lia.
  - intros j b. eexists. reflexivity.
  - exists batches, w'. split; [apply Hrun|]. split; [apply Hu|].
    split; [apply Hcat|].
    assert (length batches = 3%nat) as Hthree.
    { apply Nat2Z.inj. rewrite Hlen. reflexivity. }
    rewrite Hthree in Hs, Hd. split; [apply Hs|]. split; [apply Hd|].
    vm_compute in Hcreate. injection Hcreate as <-. apply Htrace.
Defined.

Lemma processBatches_terminates_bounded_witness :
  ∃ (out : Outcome ()) (w' : World),
    processBatches unitBatchConfig failing_sink 3 three_docs initialWorld
    = (out, w')
    ∧ out ≠ Running
    ∧ (sends w' ≤ 9)%nat.
Proof.
  destruct (processBatches_terminates_bounded unitBatchConfig failing_sink
              three_docs 3 initialWorld)
    as (batches & out & w' & calls & Hcreate & Hrun & Hend & _ & Hs & _ & Hlen & _).
  - simpl. lia.
  - simpl. lia.
  - exists out, w'. split; [apply Hrun|]. split; [apply Hend|].
    vm_compute in Hcreate. injection Hcreate as <-.
    rewrite Hs. simpl in *. lia.
Defined.

Lemma processBatches_return_means_accepted_witness :
  ∃ batches (ms : list nat),
    createBatches 3 three_docs 1 = Some batches
    ∧ length ms = length batches
    ∧ uploads
        [EvSend [sampleDoc "a"]; EvDelay 100; EvSend [sampleDoc "a"];
         EvSend [sampleDoc "b"]; EvDelay 1000; EvSend [sampleDoc "c"]]
      = blocks batches ms.
Proof.
  destruct (processBatches_return_means_accepted unitBatchConfig (flaky_sink 1)
              three_docs 3 initialWorld
              (MkWorld 0 4
                 [EvSend [sampleDoc "a"]; EvDelay 100; EvSend [sampleDoc "a"];
                  EvSend [sampleDoc "b"]; EvDelay 1000; EvSend [sampleDoc "c"]]))
    as (batches & ms & Hcreate & Hlen & Hu & _).
  - simpl. lia.
  - vm_compute. reflexivity.
  - exists batches, ms. split; [apply Hcreate|]. split; [apply Hlen|apply Hu].
Defined.

Lemma processBatches_no_budget_swallows_witness :
  ∃ batches w',
    processBatches noRetryConfig failing_sink 3 three_docs initialWorld
    = (Return (), w')
    ∧ uploads (trace w') = batches
    ∧ sends w' = (0 + length batches)%nat.
Proof.
  destruct (processBatches_no_budget_swallows noRetryConfig failing_sink
              three_docs 3 initialWorld)
    as (batches & w' & _ & Hrun & Hu & Hs).
  - simpl. lia.
  - simpl. lia.
  - simpl. lia.
  - exists batches, w'. split; [apply Hrun|]. split; [apply Hu | apply Hs].
Defined.


(** ** The transformer inside the run *)

Section SyncFacts.
Variable config : Config.
Variable JSON_stringify : RawDocument → string.
Variable md5_hex : string → string.
Variable decimal : Z → string.
Variable toISOString : Z → string.
Variable Buffer_from_object : JsVal → JsResult (list Byte.byte).
Variable clock : nat → Z.
Variable httpGet : Z → Z → JsResult ResponseData.
Variable sinkSend : nat → list SinkDocument → JsResult SinkResponse.

Local Abbreviation transform :=
  (transformDocument config JSON_stringify md5_hex decimal toISOString
     Buffer_from_object clock).
Local Abbreviation text_of document :=
  (prop document "content" ||| prop document "body" ||| VStr "").
Local Abbreviation fetchDocs :=
  (fetchDocuments config JSON_stringify md5_hex decimal toISOString
     Buffer_from_object clock httpGet).
Local Abbreviation run_sync :=
  (sync config JSON_stringify md5_hex decimal toISOString
     Buffer_from_object clock httpGet sinkSend).
Local Abbreviation limit := (pageLimit config).
Local Abbreviation batchSize := (dataSource_batchSize config).

(** Every run of [transformDocument]: it ends, it touches nothing but the
    clock, it throws exactly what [Buffer.from] throws, and it returns a
    document built from the fields of the source. *)
Lemma transformDocument_outcome (document : RawDocument) (w : World) :
  ∃ (out : Outcome SinkDocument) (w' : World),
    transform document w = (out, w')
    ∧ sends w' = sends w
    ∧ trace w' = trace w
    ∧ (clockReads w ≤ clockReads w')%nat
    ∧ match out with
      | Return sd =>
          Buffer_from Buffer_from_object (text_of document) = Resolved (doc_blob sd)
          ∧ doc_title sd
            = prop document "title" ||| prop document "name" ||| VStr "Untitled"
          ∧ doc_contentType sd = "PLAIN_TEXT"
          ∧ truthy (doc_id sd) = true
          ∧ (truthy (prop document "id") = true → doc_id sd = prop document "id")
          ∧ ∃ created updated,
              doc_attributes sd
              = extractCustomAttributes document
                ∪ <["_source_uri" := prop document "url" ||| prop document "source"
                                     ||| VStr ""]>
                    (<["_created_at" := created]>
                       (<["_updated_at" := updated]> ∅))
      | Throw e => Buffer_from Buffer_from_object (text_of document) = Rejected e
      | Running => False
      end.
Proof.
  unfold transformDocument, or_else, generateDocumentId, new_Date_toISOString,
    Date_now, await, mbind, M_bind, mret, M_ret, throw.
  destruct (truthy (prop document "id")) eqn:Hid;
    destruct (Buffer_from Buffer_from_object (text_of document)) as [blob|e];
    destruct (truthy (prop document "createdAt"));
    destruct (truthy (prop document "updatedAt"));
    cbn -[js_or Buffer_from extractCustomAttributes truthy];
    eexists _, _; (split; [reflexivity|]);
    cbn -[js_or Buffer_from extractCustomAttributes truthy];
    (split_and!; try done; try lia; eauto).
  all: try (intros; discriminate).
  all: apply truthy_VStr, append_nonempty; discriminate.
Qed.

Lemma bind_run {A B} (m : M A) (k : A → M B) (w : World) :
  (m ≫= k) w =
    match m w with
    | (Return a, w') => k a w'
    | (Throw e, w') => (Throw e, w')
    | (Running, w') => (Running, w')
    end.
Proof. done. Qed.

Lemma mapM_cons {A B} (f : A → M B) (x : A) (l : list A) (w : World) :
  mapM f (x :: l) w =
    match f x w with
    | (Return y, w1) =>
        match mapM f l w1 with
        | (Return k, w2) => (Return (y :: k), w2)
        | (Throw e, w2) => (Throw e, w2)
        | (Running, w2) => (Running, w2)
        end
    | (Throw e, w1) => (Throw e, w1)
    | (Running, w1) => (Running, w1)
    end.
Proof.
  change (mapM f (x :: l)) with (y ← f x; k ← mapM f l; mret (y :: k)).
  unfold mbind, M_bind. destruct (f x w) as [[y|e|] w1]; [|done|done].
  by destruct (mapM f l w1) as [[k|e|] w2].
Qed.

(** [documents.map(doc => this.transformDocument(doc))]: it ends, touches
    nothing but the clock, returns the transformed documents in order when
    [Buffer.from] accepts every content, and otherwise throws what
    [Buffer.from] throws for one of the documents. *)
Lemma map_transform_outcome (documents : list RawDocument) :
  ∀ w,
    ∃ (out : Outcome (list SinkDocument)) (w' : World),
      mapM transform documents w = (out, w')
      ∧ sends w' = sends w
      ∧ trace w' = trace w
      ∧ match out with
        | Return sds =>
            Forall2
              (λ raw sd,
                 Buffer_from Buffer_from_object (text_of raw) = Resolved (doc_blob sd)
                 ∧ doc_title sd
                   = prop raw "title" ||| prop raw "name" ||| VStr "Untitled"
                 ∧ doc_contentType sd = "PLAIN_TEXT"
                 ∧ truthy (doc_id sd) = true
                 ∧ (truthy (prop raw "id") = true → doc_id sd = prop raw "id"))
              documents sds
        | Throw e =>
            Exists (λ raw, Buffer_from Buffer_from_object (text_of raw) = Rejected e)
              documents
        | Running => False
        end.
Proof.
  induction documents as [|raw documents IH]; intros w.
  - exists (Return []), w. split_and!; [done | done | done | constructor].
  - rewrite mapM_cons.
    destruct (transformDocument_outcome raw w)
      as (out & w1 & Hrun & Hs1 & Ht1 & _ & Hout).
    rewrite Hrun. destruct out as [sd|e|]; [| |done].
    + destruct (IH w1) as (out & w2 & Hmap & Hs2 & Ht2 & Hout2).
      rewrite Hmap. destruct out as [sds|e|]; [| |done].
      * exists (Return (sd :: sds)), w2.
        split_and!; [done | congruence | congruence |].
        constructor; [|done].
        destruct Hout as (? & ? & ? & ? & ? & _). done.
      * exists (Throw e), w2.
        split_and!; [done | congruence | congruence |].
        by apply Exists_cons_tl.
    + exists (Throw e), w1. split_and!; try done. by apply Exists_cons_hd.
Qed.




(** X7. One document whose content [Buffer.from] refuses (a number, say)
    is enough to make [sync] throw before anything is uploaded: all the
    documents that were fetched are dropped, the good ones too. *)
Theorem sync_aborts_on_bad_document (raws : list RawDocument)
    (fuel : nat) (w w1 : World) :
  fetchAll config httpGet fuel w = (Return raws, w1) →
  Exists (λ raw, ∃ e, Buffer_from Buffer_from_object (text_of raw) = Rejected e)
    raws →
  ∃ e w2,
    run_sync fuel w = (Throw e, w2)
    ∧ Exists (λ raw, Buffer_from Buffer_from_object (text_of raw) = Rejected e) raws
    ∧ sends w2 = sends w1
    ∧ trace w2 = trace w1.
Proof.
  intros Hfetch Hbad.
  destruct (map_transform_outcome raws w1) as (out & w2 & Hmap & Hs & Ht & Hout).
  unfold sync, fetchDocuments, try_catch.
  rewrite bind_run, bind_run, Hfetch, Hmap.
  destruct out as [sds|e|]; [| |done].
  - exfalso. apply Exists_exists in Hbad as (raw & Hin & e & Hrej).
    apply list_elem_of_lookup in Hin as [k Hk].
    destruct (Forall2_lookup_l _ _ _ _ _ Hout Hk) as (sd & _ & Hres & _).
    congruence.
  - by exists e, w2.
Qed.


Lemma extractCustomAttributes_lookup (document : RawDocument) (key : string) :
  key ∈ ["author"; "category"; "tags"] →
  extractCustomAttributes document !! key
  = if truthy (prop document key) then Some (prop document key) else None.
Proof.
  intros Hkey. unfold extractCustomAttributes.
  repeat (apply elem_of_cons in Hkey as [->|Hkey]); [| | |by apply elem_of_nil in Hkey];
    repeat case_match;
    repeat first [rewrite lookup_insert_eq | rewrite lookup_insert_ne by done];
    rewrite ?lookup_empty; congruence.
Qed.

(** X11. The attributes of a transformed document are the three mandatory
    ones, whose values come from [url]/[source], [createdAt] and
    [updatedAt] only, plus those of [author], [category] and [tags] that
    are truthy in the source, copied as they are; a falsy optional field
    and every other field of the source leave no attribute. *)
Theorem transformDocument_attributes (document : RawDocument) (w w' : World)
    (sd : SinkDocument) :
  transform document w = (Return sd, w') →
  (∀ key, key ∈ ["author"; "category"; "tags"] →
     doc_attributes sd !! key
     = if truthy (prop document key) then Some (prop document key) else None)
  ∧ doc_attributes sd !! "_source_uri"
    = Some (prop document "url" ||| prop document "source" ||| VStr "")
  ∧ is_Some (doc_attributes sd !! "_created_at")
  ∧ is_Some (doc_attributes sd !! "_updated_at")
  ∧ (∀ key,
       key ∉ ["author"; "category"; "tags";
              "_source_uri"; "_created_at"; "_updated_at"] →
       doc_attributes sd !! key = None).
Proof.
  intros Hrun.
  destruct (transformDocument_outcome document w)
    as (out & w1 & Hrun' & _ & _ & _ & Hout).
  rewrite Hrun in Hrun'. injection Hrun' as <- <-.
  destruct Hout as (_ & _ & _ & _ & _ & created & updated & ->).
  split_and!.
  - intros key Hkey.
    assert (key ≠ "_source_uri" ∧ key ≠ "_created_at" ∧ key ≠ "_updated_at")
      as (? & ? & ?).
    { repeat (apply elem_of_cons in Hkey as [->|Hkey]);
        [| | |by apply elem_of_nil in Hkey]; done. }
    rewrite lookup_union, extractCustomAttributes_lookup by done.
    repeat (rewrite lookup_insert_ne by done). rewrite lookup_empty.
    by destruct (truthy (prop document key)).
  - rewrite lookup_union_r by (by apply extractCustomAttributes_other).
    by rewrite lookup_insert_eq.
  - rewrite lookup_union_r by (by apply extractCustomAttributes_other).
    rewrite lookup_insert_ne, lookup_insert_eq by done. by eexists.
  - rewrite lookup_union_r by (by apply extractCustomAttributes_other).
    rewrite !lookup_insert_ne, lookup_insert_eq by done. by eexists.
  - intros key Hkey.
    assert (key ≠ "author" ∧ key ≠ "category" ∧ key ≠ "tags"
            ∧ key ≠ "_source_uri" ∧ key ≠ "_created_at" ∧ key ≠ "_updated_at")
      as (? & ? & ? & ? & ? & ?).
    { split_and!; intros ->; apply Hkey; rewrite !elem_of_cons; tauto. }
    rewrite lookup_union_r by (by apply extractCustomAttributes_other).
    repeat (rewrite lookup_insert_ne by done). apply lookup_empty.
Qed.

End SyncFacts.


Lemma sync_aborts_on_bad_document_witness :
  ∃ e w2,
    sync testConfig sample_stringify sample_md5 sample_decimal sample_iso
      sample_buffer sample_clock bad_document_source (flaky_sink 0) 1
      initialWorld
    = (Throw e, w2)
    ∧ sends w2 = 0%nat.
Proof.
  destruct (sync_aborts_on_bad_document testConfig sample_stringify
              sample_md5 sample_decimal sample_iso sample_buffer sample_clock
              bad_document_source (flaky_sink 0)
              [{[ "id" := VStr "a" ]}; {[ "content" := VNum 5 ]}]
              1 initialWorld (MkWorld 0 0 [EvGet 1 10; EvDelay 100]))
    as (e & w2 & Hrun & _ & Hs & _).
  - vm_compute. reflexivity.
  - apply Exists_cons_tl, Exists_cons_hd. eexists. vm_compute. reflexivity.
  - exists e, w2. split; [apply Hrun | apply Hs].
Defined.


Lemma transformDocument_attributes_witness :
  ∃ sd w',
    sample_transform {[ "author" := VStr "Ann"; "category" := VStr "" ]}
      initialWorld
    = (Return sd, w')
    ∧ doc_attributes sd !! "author" = Some (VStr "Ann")
    ∧ doc_attributes sd !! "category" = None
    ∧ doc_attributes sd !! "title" = None.
Proof.
  eexists _, _.
  edestruct (transformDocument_attributes testConfig sample_stringify
               sample_md5 sample_decimal sample_iso sample_buffer sample_clock
               {[ "author" := VStr "Ann"; "category" := VStr "" ]} initialWorld)
    as (Hcustom & _ & _ & _ & Hother).
  - vm_compute. reflexivity.
  - split; [vm_compute; reflexivity|]. split_and!.
    + rewrite (Hcustom "author") by (apply elem_of_cons; by left).
      vm_compute. reflexivity.
    + rewrite (Hcustom "category")
        by (apply elem_of_cons; right; apply elem_of_cons; by left).
      vm_compute. reflexivity.
    + apply Hother. intros Hin.
      repeat (apply elem_of_cons in Hin as [Hin|Hin]; [discriminate|]).
      by apply elem_of_nil in Hin.
Defined.

(** ** The configuration store *)

Section ConfigFacts.
Variable more : string → bool.
Implicit Types (obj config value : Setting) (keys : list string).

Lemma split_dots_nonempty (path : string) : split_dots path ≠ [].
Proof.
  induction path as [|c rest IH]; simpl; [done|].
  destruct (char_is 46 c); [done|]. by destruct (split_dots rest).
Qed.

Lemma split_dots_last (path : string) :
  removelast (split_dots path) ++ [List.last (split_dots path) ""]
  = split_dots path.
Proof. symmetry. apply app_removelast_last, split_dots_nonempty. Qed.

Lemma read_of_primitive obj key :
  (∀ fields, obj ≠ SObj fields) → ∀ fields, read obj key ≠ SObj fields.
Proof.
  intros Hobj fields. destruct obj; simpl; try done.
  - unfold string_prop. repeat case_match; done.
  - by destruct (Hobj fields0).
Qed.

(** Nothing can be set below a value that is not an object: the call
    throws and the value is as before. *)
Lemma config_set_keys_primitive keys :
  ∀ obj lastKey value,
    (∀ fields, obj ≠ SObj fields) →
    ∃ e, config_set_keys obj keys lastKey value = (obj, Some e).
Proof.
  induction keys as [|key keys IH]; intros obj lastKey value Hobj.
  - destruct obj; simpl; eauto. by destruct (Hobj fields).
  - destruct obj as [| |b|n| |s|fields]; simpl; eauto;
      try (by destruct (Hobj fields)).
    destruct (truthyS (string_prop s key)) eqn:Htruthy; [|eauto].
    destruct (IH (string_prop s key) lastKey value) as [e He].
    { apply (read_of_primitive (SStr s)). done. }
    change (read (SStr s) key) with (string_prop s key). rewrite He. eauto.
Qed.

Lemma read_with_child fields key child :
  read_opt (with_child (SObj fields) key child) key = child.
Proof. simpl. by rewrite lookup_insert_eq. Qed.

(** After a successful [set] the keys lead to the value. *)
Lemma config_set_keys_get keys :
  ∀ obj lastKey value obj',
    config_set_keys obj keys lastKey value = (obj', None) →
    config_get_keys obj' (keys ++ [lastKey]) = value.
Proof.
  induction keys as [|key keys IH]; intros obj lastKey value obj' Hset.
  - destruct obj; simpl in Hset; try done.
    injection Hset as <-. simpl. by rewrite lookup_insert_eq.
  - assert (Hobj : ∃ fields, obj = SObj fields).
    { destruct obj as [| |b|n| |s|fields]; [..|by eexists];
        match type of Hset with
        | config_set_keys ?o _ _ _ = _ =>
            destruct (config_set_keys_primitive (key :: keys) o lastKey value)
              as [e He]; [done|congruence]
        end. }
    destruct Hobj as [fields ->]. simpl in Hset. unfold read in Hset.
    destruct (truthyS (default SUndefined (fields !! key))) eqn:Htruthy.
    + destruct (config_set_keys (default SUndefined (fields !! key)) keys
                  lastKey value) as [child error] eqn:Hrec.
      injection Hset as <- ->.
      unfold config_get_keys. rewrite <- app_comm_cons.
      simpl fold_left. rewrite lookup_insert_eq. simpl.
      by apply IH in Hrec.
    + simpl in Hset. rewrite lookup_insert_eq in Hset. simpl in Hset.
      destruct (config_set_keys (SObj ∅) keys lastKey value)
        as [child error] eqn:Hrec.
      injection Hset as <- ->.
      unfold config_get_keys. rewrite <- app_comm_cons.
      simpl fold_left. rewrite lookup_insert_eq. simpl.
      by apply IH in Hrec.
Qed.

(** X12. Whenever [set(path, value)] does not throw, [get(path)] gives
    [value] afterwards, whatever the configuration held before and however
    many intermediate objects [set] had to create. This is for a path of
    which no piece names an inherited member (for [__proto__], say, the
    assignment of [set] goes to an accessor and [get] gives the prototype). *)
Theorem config_get_after_set config (path : string) value config' :
  Config_set more config path value = Some (config', None) →
  Config_get more config' path = Some value.
Proof.
  unfold Config_set, Config_get. destruct (plain_path more path); [|done].
  intros [= Hset]. f_equal. unfold config_get. rewrite <- split_dots_last.
  eapply config_set_keys_get, Hset.
Qed.

Lemma read_opt_falsy obj key : truthyS obj = false → truthyS (read_opt obj key) = false.
Proof.
  destruct obj as [| |b|n| |s|fields]; simpl; try done.
  intros Hs. destruct s; [|done]. unfold string_prop. simpl.
  by destruct (String.eqb key "length").
Qed.

(** Below a falsy value there is nothing truthy. *)
Lemma config_get_keys_falsy keys :
  ∀ obj, truthyS obj = false → truthyS (config_get_keys obj keys) = false.
Proof.
  induction keys as [|key keys IH]; intros obj Hobj; [done|].
  apply IH. by apply read_opt_falsy.
Qed.

Lemma lookup_truthy (fields : gmap string Setting) key :
  truthyS (default SUndefined (fields !! key)) = true →
  fields !! key = Some (default SUndefined (fields !! key)).
Proof. by destruct (fields !! key). Qed.

(** [set] goes through exactly when every value on the way is falsy or an
    object. *)
Lemma config_set_keys_succeeds keys :
  ∀ (fields : gmap string Setting) lastKey value,
    snd (config_set_keys (SObj fields) keys lastKey value) = None
    ↔ ∀ pre, pre ≠ [] → pre `prefix_of` keys →
             passable (config_get_keys (SObj fields) pre).
Proof.
  induction keys as [|key keys IH]; intros fields lastKey value.
  - simpl. split; [|done]. intros _ pre Hne Hpre.
    apply prefix_nil_inv in Hpre. done.
  - simpl. unfold read.
    destruct (truthyS (default SUndefined (fields !! key))) eqn:Htruthy.
    + assert (Hcases : (∃ child, default SUndefined (fields !! key) = SObj child)
                       ∨ (∀ f, default SUndefined (fields !! key) ≠ SObj f)).
      { destruct (default SUndefined (fields !! key)); eauto. }
      destruct Hcases as [[child Hchild]|Hprim]; last first.
      { destruct (config_set_keys_primitive keys
                    (default SUndefined (fields !! key)) lastKey value Hprim)
          as [e He].
        rewrite He. simpl. split; [done|]. intros Hall.
        destruct (Hall [key]) as [Hfalsy|[f Hf]];
          [done | by eexists | | ];
          unfold config_get_keys in *; simpl in *.
        - congruence.
        - by destruct (Hprim f). }
      rewrite Hchild.
      destruct (config_set_keys (SObj child) keys lastKey value)
        as [child' error] eqn:Hrec.
      simpl. specialize (IH child lastKey value). rewrite Hrec in IH.
      simpl in IH. rewrite IH. split.
      * intros Hall pre Hne Hpre. destruct pre as [|k pre]; [done|].
        apply prefix_cons_inv_1 in Hpre as Hk. subst k.
        apply prefix_cons_inv_2 in Hpre.
        unfold config_get_keys. simpl. rewrite Hchild.
        destruct pre as [|k pre]; [right; by eexists|].
        exact (Hall (k :: pre) ltac:(done) Hpre).
      * intros Hall pre Hne Hpre.
        specialize (Hall (key :: pre) ltac:(done) ltac:(by apply prefix_cons)).
        unfold config_get_keys in Hall. simpl in Hall. by rewrite Hchild in Hall.
    + simpl. rewrite lookup_insert_eq. simpl.
      destruct (config_set_keys (SObj ∅) keys lastKey value)
        as [child' error] eqn:Hrec.
      simpl. specialize (IH ∅ lastKey value). rewrite Hrec in IH. simpl in IH.
      assert (Hfresh : error = None).
      { apply IH. intros pre Hne Hpre. left.
        destruct pre as [|k pre]; [done|].
        unfold config_get_keys. simpl. rewrite lookup_empty. simpl.
        by apply config_get_keys_falsy. }
      split; [|done]. intros _ pre Hne Hpre. left.
      destruct pre as [|k pre]; [done|].
      apply prefix_cons_inv_1 in Hpre as Hk. subst k.
      unfold config_get_keys. simpl.
      apply config_get_keys_falsy.
      destruct (default SUndefined (fields !! key)); simpl in *; done.
Qed.

(** A [set] that throws has changed nothing, and what it throws is a
    TypeError. *)
Lemma config_set_keys_failure keys :
  ∀ obj lastKey value e,
    snd (config_set_keys obj keys lastKey value) = Some e →
    fst (config_set_keys obj keys lastKey value) = obj
    ∧ err_name e = "TypeError".
Proof.
  induction keys as [|key keys IH]; intros obj lastKey value e Hfail.
  - destruct obj; simpl in *; try done; by injection Hfail as <-.
  - destruct obj as [| |b|n| |s|fields];
      try (simpl in *; by injection Hfail as <-).
    + simpl in *. destruct (truthyS (string_prop s key)); [|by injection Hfail as <-].
      unfold read in *.
      destruct (config_set_keys (string_prop s key) keys lastKey value)
        as [child error] eqn:Hrec.
      simpl in *. split; [done|].
      specialize (IH (string_prop s key) lastKey value e).
      rewrite Hrec in IH. by apply IH.
    + simpl in *. unfold read in *.
      destruct (truthyS (default SUndefined (fields !! key))) eqn:Htruthy.
      * destruct (config_set_keys (default SUndefined (fields !! key)) keys
                    lastKey value) as [child error] eqn:Hrec.
        simpl in *. subst error.
        specialize (IH (default SUndefined (fields !! key)) lastKey value e).
        rewrite Hrec in IH. destruct IH as [Hsame Hname]; [done|].
        simpl in Hsame. subst child. split; [|done].
        f_equal. apply insert_id. by apply lookup_truthy.
      * simpl in *. rewrite lookup_insert_eq in Hfail. simpl in Hfail.
        pose proof (config_set_keys_succeeds keys ∅ lastKey value) as [_ Hfresh].
        destruct (config_set_keys (SObj ∅) keys lastKey value)
          as [child error] eqn:Hrec.
        simpl in *. rewrite Hfresh in Hfail; [done|].
        intros pre Hne Hpre. left. destruct pre as [|k pre]; [done|].
        unfold config_get_keys. simpl. rewrite lookup_empty. simpl.
        by apply config_get_keys_falsy.
Qed.

(** X13. For a path of which no piece names an inherited member,
    [set(path, value)] on a configuration object goes through exactly
    when every value met before the last piece of the path is falsy (it is
    then replaced by a fresh object) or an object; otherwise, that is
    when the path leads through a truthy string, number or boolean, it
    throws a TypeError and leaves the configuration as it was. *)
Theorem config_set_throws_below_primitive (fields : gmap string Setting)
    (path : string) value (config' : Setting) (error : option JsError) :
  Config_set more (SObj fields) path value = Some (config', error) →
  (error = None
   ↔ ∀ pre, pre ≠ [] → pre `prefix_of` removelast (split_dots path) →
            passable (config_get_keys (SObj fields) pre))
  ∧ (∀ e, error = Some e → config' = SObj fields ∧ err_name e = "TypeError").
Proof.
  unfold Config_set. destruct (plain_path more path); [|done].
  intros [= Hset].
  assert (Hfst : fst (config_set (SObj fields) path value) = config')
    by (by rewrite Hset).
  assert (Hsnd : snd (config_set (SObj fields) path value) = error)
    by (by rewrite Hset).
  rewrite <- Hfst, <- Hsnd. split.
  - apply config_set_keys_succeeds.
  - intros e. apply config_set_keys_failure.
Qed.

Lemma config_set_keys_object keys obj lastKey value obj' :
  config_set_keys obj keys lastKey value = (obj', None) →
  ∃ fields, obj = SObj fields.
Proof.
  intros Hset. destruct obj as [| |b|n| |s|fields]; [..|by eexists];
    match type of Hset with
    | config_set_keys ?o _ _ _ = _ =>
        destruct (config_set_keys_primitive keys o lastKey value)
          as [e He]; [done|congruence]
    end.
Qed.

Lemma config_get_keys_undefined keys : config_get_keys SUndefined keys = SUndefined.
Proof. induction keys as [|key keys IH]; [done|]. apply IH. Qed.

Lemma read_opt_falsy_value obj key :
  truthyS obj = false →
  read_opt obj key = SUndefined
  ∨ (obj = SStr "" ∧ read_opt obj key = SNum 0).
Proof.
  destruct obj as [| |b|n| |s|fields]; simpl; try (by left).
  intros Hs. destruct s; [|done]. unfold string_prop. simpl.
  destruct (String.eqb key "length"); [by right|by left].
Qed.

(** Below a falsy value that is not the empty string, and two or more
    levels below any falsy value, [get] finds [undefined]. *)
Lemma config_get_keys_below_falsy obj key keys :
  truthyS obj = false →
  obj ≠ SStr "" ∨ keys ≠ [] →
  config_get_keys obj (key :: keys) = SUndefined.
Proof.
  intros Hfalsy Hcase. unfold config_get_keys. simpl.
  destruct (read_opt_falsy_value obj key Hfalsy) as [->|[-> ->]].
  - apply config_get_keys_undefined.
  - destruct Hcase as [?|Hne]; [done|].
    destruct keys as [|k keys]; [done|]. simpl. apply config_get_keys_undefined.
Qed.

(** A successful [set] leaves alone what lies on a path that parts from
    its own path, unless the value at the parting is the empty string. *)
Lemma config_set_keys_frame (common : list string) :
  ∀ obj keys lastKey value obj' k1 rest1 k2 rest2,
    config_set_keys obj keys lastKey value = (obj', None) →
    keys ++ [lastKey] = common ++ k1 :: rest1 →
    k1 ≠ k2 →
    config_get_keys obj common ≠ SStr "" →
    config_get_keys obj' (common ++ k2 :: rest2)
    = config_get_keys obj (common ++ k2 :: rest2).
Proof.
  induction common as [|k common IH];
    intros obj keys lastKey value obj' k1 rest1 k2 rest2 Hset Hpath Hne Hstr.
  - destruct (config_set_keys_object _ _ _ _ _ Hset) as [fields ->].
    assert (Hread : ∃ fields', obj' = SObj fields' ∧ fields' !! k2 = fields !! k2).
    { destruct keys as [|key keys]; simpl in Hpath.
      - injection Hpath as -> _. simpl in Hset. injection Hset as <-.
        eexists. split; [done|]. by rewrite lookup_insert_ne.
      - injection Hpath as -> _. simpl in Hset. unfold read in Hset.
        destruct (truthyS (default SUndefined (fields !! k1))); simpl in Hset.
        + destruct (config_set_keys _ keys lastKey value) as [child error].
          injection Hset as <- _. eexists. split; [done|].
          by rewrite lookup_insert_ne.
        + destruct (config_set_keys _ keys lastKey value) as [child error].
          injection Hset as <- _. eexists. split; [done|].
          by rewrite !lookup_insert_ne. }
    destruct Hread as (fields' & -> & Hsame).
    unfold config_get_keys. simpl. by rewrite Hsame.
  - destruct (config_set_keys_object _ _ _ _ _ Hset) as [fields ->].
    destruct keys as [|key keys]; simpl in Hpath.
    { injection Hpath as _ Hnil. by destruct common. }
    injection Hpath as -> Hpath. simpl in Hset. unfold read in Hset.
    change (config_get_keys (SObj fields) (k :: common))
      with (config_get_keys (default SUndefined (fields !! k)) common) in Hstr.
    change (config_get_keys (SObj fields) ((k :: common) ++ k2 :: rest2))
      with (config_get_keys (default SUndefined (fields !! k)) (common ++ k2 :: rest2)).
    destruct (truthyS (default SUndefined (fields !! k))) eqn:Htruthy;
      simpl in Hset.
    + destruct (config_set_keys (default SUndefined (fields !! k)) keys
                  lastKey value) as [child error] eqn:Hrec.
      injection Hset as <- ->.
      unfold config_get_keys at 1. simpl. rewrite lookup_insert_eq. simpl.
      eapply IH; eauto.
    + rewrite lookup_insert_eq in Hset. simpl in Hset.
      destruct (config_set_keys (SObj ∅) keys lastKey value)
        as [child error] eqn:Hrec.
      injection Hset as <- ->.
      unfold config_get_keys at 1. simpl. rewrite lookup_insert_eq. simpl.
      assert (Hfresh : config_get_keys (SObj ∅) common ≠ SStr "").
      { destruct common as [|k' common]; [done|].
        unfold config_get_keys. simpl. rewrite lookup_empty. simpl.
        fold (config_get_keys SUndefined common).
        by rewrite (config_get_keys_undefined common). }
      etransitivity;
        [exact (IH (SObj ∅) keys lastKey value child k1 rest1 k2 rest2
                  Hrec Hpath Hne Hfresh)|].
      transitivity SUndefined.
      * destruct common as [|k' common]; unfold config_get_keys; simpl;
          rewrite lookup_empty; simpl; apply config_get_keys_undefined.
      * symmetry. destruct common as [|k' common]; simpl.
        -- apply config_get_keys_below_falsy; [done|]. by left.
        -- apply config_get_keys_below_falsy; [done|]. right. by destruct common.
Qed.

(** X14. A [set] that goes through changes nothing for a [get] along
    another branch: when the two paths have the pieces [common] in common
    and then part on different pieces, [get] of the second path gives what
    it gave before, provided that the value at the parting was not the
    empty string (whose [length] is lost when [set] replaces it by an
    object). This is for a configuration that is a tree, as the type has
    it, and for paths of which no piece names an inherited member: a
    [set] through [__proto__] writes to the prototype that all objects
    share. *)
Theorem config_set_keeps_other_paths config (path other : string) value config'
    (common : list string) (k1 k2 : string) (rest1 rest2 : list string) :
  Config_set more config path value = Some (config', None) →
  plain_path more other = true →
  split_dots path = common ++ k1 :: rest1 →
  split_dots other = common ++ k2 :: rest2 →
  k1 ≠ k2 →
  config_get_keys config common ≠ SStr "" →
  ∃ v, Config_get more config other = Some v
       ∧ Config_get more config' other = Some v.
Proof.
  unfold Config_set, Config_get. destruct (plain_path more path); [|done].
  intros [= Hset] -> Hpath Hother Hne Hstr.
  exists (config_get config other). split; [done|]. f_equal.
  unfold config_get. rewrite Hother.
  eapply config_set_keys_frame; eauto.
  by rewrite split_dots_last.
Qed.

(** *** The constructor *)

(** Reading a path given by a literal in the configuration of the
    constructor. *)
Ltac get_new :=
  unfold config_get, config_get_keys;
  match goal with
  | |- context [split_dots ?p] =>
      let l := eval vm_compute in (split_dots p) in
      change (split_dots p) with l
  end;
  unfold Config_new; cbn [fold_left read_opt read];
  repeat (first [rewrite lookup_insert_eq | rewrite lookup_insert_ne by done];
          cbn [default fold_left read_opt read]).

Lemma get_new_applicationId env :
  config_get (Config_new env) "aws.qBusinessApplicationId"
  = env_var env "Q_BUSINESS_APPLICATION_ID".
Proof. by get_new. Qed.

Lemma get_new_dataSourceId env :
  config_get (Config_new env) "aws.dataSourceId"
  = env_var env "Q_BUSINESS_DATA_SOURCE_ID".
Proof. by get_new. Qed.

Lemma get_new_baseUrl env :
  config_get (Config_new env) "dataSource.baseUrl"
  = env_var env "DATA_SOURCE_BASE_URL".
Proof. by get_new. Qed.

Lemma get_new_name env :
  config_get (Config_new env) "plugin.name"
  = or_default (env_var env "PLUGIN_NAME") (SStr "custom-plugin").
Proof. by get_new. Qed.

Lemma get_new_batchSize env :
  config_get (Config_new env) "dataSource.batchSize"
  = or_default (parseInt (env_var env "BATCH_SIZE")) (SNum 100).
Proof. by get_new. Qed.

Lemma get_new_maxRetries env :
  config_get (Config_new env) "plugin.maxRetries"
  = or_default (parseInt (env_var env "MAX_RETRIES")) (SNum 3).
Proof. by get_new. Qed.

Lemma get_new_retryDelay env :
  config_get (Config_new env) "plugin.retryDelay"
  = or_default (parseInt (env_var env "RETRY_DELAY")) (SNum 1000).
Proof. by get_new. Qed.

Lemma truthyS_env_var (env : gmap string string) name :
  truthyS (env_var env name) = true ↔ ∃ s, env !! name = Some s ∧ s ≠ "".
Proof.
  unfold env_var. destruct (env !! name) as [s|]; simpl.
  - destruct s; simpl; split; try done.
    + by intros (s & [= <-] & ?).
    + intros _. eexists. split; [done|]. done.
  - split; [done|]. by intros (s & ? & _).
Qed.

(** X15. For the configuration that the constructor builds from the
    environment, [validate] passes exactly when the three variables
    Q_BUSINESS_APPLICATION_ID, Q_BUSINESS_DATA_SOURCE_ID and
    DATA_SOURCE_BASE_URL are set and not empty; no other variable (index
    id, credentials, sizes) plays a part. *)
Theorem config_validate_new (env : gmap string string) :
  config_validate (Config_new env) = true
  ↔ (∃ s, env !! "Q_BUSINESS_APPLICATION_ID" = Some s ∧ s ≠ "")
    ∧ (∃ s, env !! "Q_BUSINESS_DATA_SOURCE_ID" = Some s ∧ s ≠ "")
    ∧ (∃ s, env !! "DATA_SOURCE_BASE_URL" = Some s ∧ s ≠ "").
Proof.
  rewrite <- !truthyS_env_var.
  unfold config_validate, missing_keys, required_keys.
  rewrite !filter_cons, filter_nil.
  rewrite get_new_applicationId, get_new_dataSourceId, get_new_baseUrl.
  destruct (truthyS (env_var env "Q_BUSINESS_APPLICATION_ID"));
    destruct (truthyS (env_var env "Q_BUSINESS_DATA_SOURCE_ID"));
    destruct (truthyS (env_var env "DATA_SOURCE_BASE_URL"));
    repeat case_decide; simpl; try done; intuition discriminate.
Qed.

Lemma parseInt_number v :
  (∃ n, parseInt v = SNum n) ∨ parseInt v = SNaN.
Proof.
  destruct v; simpl; eauto. unfold parseInt_string.
  repeat case_match; eauto.
Qed.

(** A numeric setting of the constructor is a number other than zero. *)
Lemma numeric_setting v (d : Z) :
  d ≠ 0 →
  ∃ n, or_default (parseInt v) (SNum d) = SNum n ∧ n ≠ 0
       ∧ (parseInt v = SNaN ∨ parseInt v = SNum 0 → n = d).
Proof.
  intros Hd. unfold or_default.
  destruct (parseInt_number v) as [[n Hn]| ->]; [rewrite Hn|]; simpl.
  - destruct (Z.eqb_spec n 0) as [->|Hn0]; simpl.
    + exists d. by split_and!.
    + exists n. split_and!; [done|done|]. intros [?|[= ?]]; done.
  - exists d. by split_and!.
Qed.

(** The settings of the constructor's configuration. *)
Lemma settings_of_new (env : gmap string string) :
  ∃ c,
    settings (Config_new env) = Some c
    ∧ plugin_name c ≠ ""
    ∧ dataSource_batchSize c ≠ 0
    ∧ plugin_maxRetries c ≠ 0
    ∧ plugin_retryDelay c ≠ 0
    ∧ pageLimit c = dataSource_batchSize c
    ∧ (parseInt (env_var env "BATCH_SIZE") = SNaN
       ∨ parseInt (env_var env "BATCH_SIZE") = SNum 0 →
       dataSource_batchSize c = 100)
    ∧ (parseInt (env_var env "MAX_RETRIES") = SNaN
       ∨ parseInt (env_var env "MAX_RETRIES") = SNum 0 →
       plugin_maxRetries c = 3)
    ∧ (parseInt (env_var env "RETRY_DELAY") = SNaN
       ∨ parseInt (env_var env "RETRY_DELAY") = SNum 0 →
       plugin_retryDelay c = 1000).
Proof.
  unfold settings.
  rewrite get_new_name, get_new_batchSize, get_new_maxRetries, get_new_retryDelay.
  destruct (numeric_setting (env_var env "BATCH_SIZE") 100) as (b & -> & Hb & Hbd);
    [done|].
  destruct (numeric_setting (env_var env "MAX_RETRIES") 3) as (r & -> & Hr & Hrd);
    [done|].
  destruct (numeric_setting (env_var env "RETRY_DELAY") 1000) as (d & -> & Hd & Hdd);
    [done|].
  assert (Hname : ∃ name, or_default (env_var env "PLUGIN_NAME") (SStr "custom-plugin")
                          = SStr name ∧ name ≠ "").
  { unfold or_default, env_var. destruct (env !! "PLUGIN_NAME") as [s|]; simpl.
    - destruct s; simpl; eauto.
    - eauto. }
  destruct Hname as (name & -> & Hname).
  eexists. split; [done|]. simpl. split_and!; try done.
  unfold pageLimit. simpl. by destruct (Z.eqb_spec b 0).
Qed.

(** X16. Whatever the environment holds, the settings that the plugin
    manager reads from the configuration of the constructor are
    well-typed: the plugin name is a non-empty string and the batch size,
    the retry budget and the retry delay are numbers other than zero, the
    defaults 100, 3 and 1000 standing in when the variable is unset, not a
    number, or zero. Nothing makes them positive. *)
Theorem Config_new_settings (env : gmap string string) :
  ∃ c,
    settings (Config_new env) = Some c
    ∧ plugin_name c ≠ ""
    ∧ dataSource_batchSize c ≠ 0
    ∧ plugin_maxRetries c ≠ 0
    ∧ plugin_retryDelay c ≠ 0
    ∧ pageLimit c = dataSource_batchSize c
    ∧ (parseInt (env_var env "BATCH_SIZE") = SNaN
       ∨ parseInt (env_var env "BATCH_SIZE") = SNum 0 →
       dataSource_batchSize c = 100)
    ∧ (parseInt (env_var env "MAX_RETRIES") = SNaN
       ∨ parseInt (env_var env "MAX_RETRIES") = SNum 0 →
       plugin_maxRetries c = 3)
    ∧ (parseInt (env_var env "RETRY_DELAY") = SNaN
       ∨ parseInt (env_var env "RETRY_DELAY") = SNum 0 →
       plugin_retryDelay c = 1000).
Proof. apply settings_of_new. Qed.

End ConfigFacts.

Lemma config_get_after_set_witness :
  ∃ config',
    Config_set nothing_more (Config_new ∅) "dataSource.batchSize" (SNum 10)
    = Some (config', None)
    ∧ Config_get nothing_more config' "dataSource.batchSize" = Some (SNum 10).
Proof.
  eexists. split; [vm_compute; reflexivity|].
  apply (config_get_after_set nothing_more (Config_new ∅)).
  vm_compute. reflexivity.
Defined.

(** [set] creates the objects that a new path needs. *)
Example config_set_creates_objects :
  config_get (fst (config_set (SObj ∅) "a.b.c" (SStr "v"))) "a.b" =
  SObj {[ "c" := SStr "v" ]}.
Proof. vm_compute. reflexivity. Qed.

Lemma config_set_throws_below_primitive_witness :
  Config_set nothing_more (SObj {[ "region" := SStr "us-east-1" ]})
    "region.x" (SNum 1)
  = Some (SObj {[ "region" := SStr "us-east-1" ]}, Some cannot_set)
  ∧ err_name cannot_set = "TypeError"
  ∧ ¬ passable (SStr "us-east-1").
Proof.
  assert (Hset : Config_set nothing_more
                   (SObj {[ "region" := SStr "us-east-1" ]}) "region.x" (SNum 1)
                 = Some (SObj {[ "region" := SStr "us-east-1" ]},
                         Some cannot_set))
    by (vm_compute; reflexivity).
  destruct (config_set_throws_below_primitive nothing_more
              {[ "region" := SStr "us-east-1" ]} "region.x" (SNum 1) _ _ Hset)
    as [Hiff Hfail].
  split; [apply Hset|]. split; [apply (Hfail cannot_set eq_refl)|].
  intros Hpass. assert (Some cannot_set = None) as Hnone; [|discriminate].
  apply Hiff. intros pre Hne Hpre.
  assert (pre = ["region"]) as ->.
  { destruct Hpre as [tail Htail]. vm_compute in Htail.
    destruct pre as [|key [|key' pre]]; [done| |discriminate].
    by injection Htail as <- _. }
  vm_compute. vm_compute in Hpass. exact Hpass.
Defined.

Lemma config_set_keeps_other_paths_witness :
  Config_set nothing_more
    (SObj {[ "aws" := SObj {[ "region" := SStr "eu" ]} ]})
    "aws.indexId" (SStr "i")
  = Some (SObj {[ "aws" := SObj {[ "region" := SStr "eu";
                                   "indexId" := SStr "i" ]} ]}, None)
  ∧ Config_get nothing_more
      (SObj {[ "aws" := SObj {[ "region" := SStr "eu";
                                "indexId" := SStr "i" ]} ]})
      "aws.region"
    = Some (SStr "eu").
Proof.
  assert (Hset : Config_set nothing_more
                   (SObj {[ "aws" := SObj {[ "region" := SStr "eu" ]} ]})
                   "aws.indexId" (SStr "i")
                 = Some (SObj {[ "aws" := SObj {[ "region" := SStr "eu";
                                                  "indexId" := SStr "i" ]} ]},
                         None))
    by (vm_compute; reflexivity).
  split; [apply Hset|].
  destruct (config_set_keeps_other_paths nothing_more
              (SObj {[ "aws" := SObj {[ "region" := SStr "eu" ]} ]})
              "aws.indexId" "aws.region" (SStr "i")
              (SObj {[ "aws" := SObj {[ "region" := SStr "eu";
                                        "indexId" := SStr "i" ]} ]})
              ["aws"] "indexId" "region" [] [] Hset)
    as (v & Hbefore & Hafter).
  - reflexivity.
  - reflexivity.
  - reflexivity.
  - discriminate.
  - vm_compute. discriminate.
  - vm_compute in Hbefore. injection Hbefore as <-. apply Hafter.
Defined.

(** Paths through inherited members are left without an answer. *)
Example Config_set_inherited_member :
  Config_set nothing_more (SObj ∅) "__proto__" (SNum 5) = None
  ∧ Config_set nothing_more (SObj {[ "name" := SStr "abc" ]})
      "name.toString.x" (SNum 1) = None
  ∧ Config_get nothing_more (SObj ∅) "constructor.name" = None.
Proof. by vm_compute. Qed.

(** Why the empty string is set apart: its [length] is read before the
    [set] and lost after it. *)
Example config_set_replaces_empty_string :
  config_get (SObj {[ "key" := SStr "" ]}) "key.length" = SNum 0
  ∧ config_get (fst (config_set (SObj {[ "key" := SStr "" ]}) "key.x" (SNum 1)))
      "key.length" = SUndefined.
Proof. split; vm_compute; reflexivity. Qed.

(** A negative batch size in the environment goes through the constructor
    and through [validate]. *)
Example Config_new_negative_batch_size :
  config_get (Config_new (<["BATCH_SIZE" := "-5"]> valid_env)) "dataSource.batchSize"
  = SNum (-5)
  ∧ config_validate (Config_new (<["BATCH_SIZE" := "-5"]> valid_env)) = true
  ∧ config_get (Config_new (<["BATCH_SIZE" := "0"]> valid_env)) "dataSource.batchSize"
    = SNum 100.
Proof. split_and!; vm_compute; reflexivity. Qed.

(** ** Where the batcher puts each document *)

Section BatcherPositions.
Context {A : Type}.
Implicit Types (documents : list A).

(** From index [k0 * s] on, the loop of [createBatches] appends the
    chunks number [k0], [k0 + 1], ... of the documents. *)
Lemma createBatches_loop_chunks documents (s : Z) :
  0 < s →
  ∀ (fuel k0 : nat) (batches : list (list A)),
    Z.of_nat (length documents) - Z.of_nat k0 * s ≤ Z.of_nat fuel →
    ∃ rest,
      createBatches_loop fuel documents s (Z.of_nat k0 * s) batches
      = Some (batches ++ rest)
      ∧ ∀ (k : nat) b,
          rest !! k = Some b →
          b = take (Z.to_nat s) (drop ((k0 + k) * Z.to_nat s) documents).
Proof.
  intros Hs. induction fuel as [|fuel IH]; intros k0 batches Hfuel.
  - exists []. simpl.
    destruct (Z.ltb_spec (Z.of_nat k0 * s) (Z.of_nat (length documents))); [lia|].
    rewrite app_nil_r. split; [done|]. intros k b Hk. by rewrite lookup_nil in Hk.
  - simpl.
    destruct (Z.ltb_spec (Z.of_nat k0 * s) (Z.of_nat (length documents)))
      as [Hlt|Hge].
    + replace (Z.of_nat k0 * s + s) with (Z.of_nat (S k0) * s) by lia.
      destruct (IH (S k0) (batches ++ [slice documents (Z.of_nat k0 * s)
                                         (Z.of_nat (S k0) * s)]))
        as (rest & Hrun & Hrest); [lia|].
      eexists (_ :: rest). rewrite Hrun, <- app_assoc. split; [done|].
      intros [|k] b Hk; simpl in Hk.
      * injection Hk as <-.
        replace (Z.of_nat (S k0) * s) with (Z.of_nat k0 * s + s) by lia.
        rewrite slice_forward by lia.
        replace (Z.to_nat (Z.of_nat k0 * s)) with (k0 * Z.to_nat s)%nat by lia.
        rewrite Nat.add_0_r.
        destruct (Z.le_gt_cases s (Z.of_nat (length documents) - Z.of_nat k0 * s)).
        -- by rewrite Z.min_l by lia.
        -- rewrite Z.min_r by lia.
           rewrite !take_ge; [done| |]; rewrite length_drop; lia.
      * rewrite (Hrest k b Hk). do 2 f_equal. lia.
    + exists []. rewrite app_nil_r. split; [done|].
      intros k b Hk. by rewrite lookup_nil in Hk.
Qed.

(** X18. With a positive batch size [s], batch number [k] of
    [createBatches] is the slice of the documents from index [k * s] up to
    [k * s + s], and so document number [j] is found in batch [j / s] at
    position [j mod s]. *)
Theorem createBatches_positions documents (s : Z) (fuel : nat) :
  0 < s →
  (length documents ≤ fuel)%nat →
  ∃ batches,
    createBatches fuel documents s = Some batches
    ∧ (∀ (k : nat) b,
         batches !! k = Some b →
         b = take (Z.to_nat s) (drop (k * Z.to_nat s) documents))
    ∧ (∀ (j : nat) d,
         documents !! j = Some d →
         ∃ b, batches !! (j / Z.to_nat s)%nat = Some b
              ∧ b !! (j mod Z.to_nat s)%nat = Some d).
Proof.
  intros Hs Hfuel.
  destruct (createBatches_loop_chunks documents s Hs fuel 0 [])
    as (batches & Hrun & Hchunks); [lia|].
  destruct (createBatches_loop_pos documents s Hs fuel 0 [])
    as (batches' & Hrun' & _ & Hlen & _); [lia|lia|].
  change (Z.of_nat 0 * s) with 0 in Hrun. simpl in Hrun, Hrun'.
  rewrite Hrun in Hrun'. injection Hrun' as <-.
  exists batches. split; [apply Hrun|]. split; [apply Hchunks|].
  intros j d Hj.
  assert (Hjlt : (j < length documents)%nat) by (by eapply lookup_lt_Some).
  assert (Hspos : (0 < Z.to_nat s)%nat) by lia.
  assert (Hk : (j / Z.to_nat s < length batches)%nat).
  { apply Nat2Z.inj_lt. rewrite Hlen, Z.max_r by lia.
    rewrite Nat2Z.inj_div, Z2Nat.id by lia. unfold ceil_div.
    replace (Z.of_nat (length documents) - 0 + s - 1)
      with ((Z.of_nat (length documents) - 1) + 1 * s) by lia.
    rewrite Z.div_add by lia.
    assert (Z.of_nat j / s ≤ (Z.of_nat (length documents) - 1) / s)
      by (apply Z.div_le_mono; lia).
    lia. }
  destruct (lookup_lt_is_Some_2 _ _ Hk) as [b Hb].
  exists b. split; [done|].
  rewrite (Hchunks _ b Hb).
  rewrite lookup_take_lt by (apply Nat.mod_upper_bound; lia).
  rewrite lookup_drop, <- Hj. f_equal.
  rewrite (Nat.div_mod_eq j (Z.to_nat s)) at 3. lia.
Qed.

End BatcherPositions.

Lemma createBatches_positions_witness :
  ∃ batches,
    createBatches 5 [10; 11; 12; 13; 14] 2 = Some batches
    ∧ ∃ b, batches !! 2%nat = Some b ∧ b !! 0%nat = Some 14.
Proof.
  destruct (createBatches_positions [10; 11; 12; 13; 14] 2 5)
    as (batches & Hrun & _ & Hpos); [lia | simpl; lia |].
  exists batches. split; [apply Hrun|].
  apply (Hpos 4%nat 14). reflexivity.
Defined.

(** ** A whole run *)

Section EndToEnd.
Variable config : Config.
Variable JSON_stringify : RawDocument → string.
Variable md5_hex : string → string.
Variable decimal : Z → string.
Variable toISOString : Z → string.
Variable Buffer_from_object : JsVal → JsResult (list Byte.byte).
Variable clock : nat → Z.
Variable httpGet : Z → Z → JsResult ResponseData.
Variable sinkSend : nat → list SinkDocument → JsResult SinkResponse.

Local Abbreviation run_sync :=
  (sync config JSON_stringify md5_hex decimal toISOString
     Buffer_from_object clock httpGet sinkSend).
Local Abbreviation limit := (pageLimit config).
Local Abbreviation batchSize := (dataSource_batchSize config).


End EndToEnd.

